(** * Account cloning pipeline: batch worker, slug resolver, asset pool

    A shallow embedding of the two edge functions of the repository that
    clone products between accounts:

    - [copy-products-between-users] (bulk copy with [generateUniqueSlug]);
    - [clone-user-products] (the self-chaining batch worker: [processBatch]
      and the [Deno.serve] handler).

    Database rows are JS objects and are modelled as finite maps from
    column names to values; the [clone_jobs] table is a record per job.
    Awaited calls on the outside world (database, storage, network) are
    steps of a state-and-exception monad over a [World]; their outcomes are
    decided by an environment [Env] indexed by a global I/O counter, so
    that a theorem quantified over [Env] covers every pattern of failures. *)

From stdpp Require Import gmap strings list fin_maps pretty.

(** ** Values and rows *)

Inductive val : Type :=
| VStr (s : string)
| VNum (n : Z)
| VBool (b : bool)
| VArr (items : list string)
| VNull.

#[global] Instance val_eq_dec : EqDecision val.
Proof. solve_decision. Defined.

(** A row is a JS object: column name to value. An absent key reads as
    [undefined]. *)
Abbreviation Row := (gmap string val).

Definition str_field (k : string) (r : Row) : string :=
  match r !! k with
  | Some (VStr s) => s
  | _ => ""
  end.

(** JS truthiness of a property read ([undefined] when the key is absent). *)
Definition truthy (v : option val) : bool :=
  match v with
  | Some (VStr s) => negb (String.eqb s "")
  | Some (VNum n) => negb (n =? 0)%Z
  | Some (VBool b) => b
  | Some (VArr _) => true
  | Some VNull | None => false
  end.

(** [.eq(col, v)]: the rows whose column [col] holds [v]. *)
Definition eq_filter (col : string) (v : val) (rows : list Row) : list Row :=
  filter (λ r, r !! col = Some v) rows.

(** [.range(from, to)]: rows [from .. to], both ends included. *)
Definition range (from to : nat) (rows : list Row) : list Row :=
  take (S to - from) (drop from rows).

(** ** Slug resolver ([generateUniqueSlug], copy-products-between-users) *)

(** The candidate built by the template literal [`${baseSlug}-${counter}`]. *)
Definition candidate (baseSlug : string) (counter : nat) : string :=
  baseSlug +:+ "-" +:+ pretty counter.

(** The [while (existingSet.has(uniqueSlug))] loop. [fuel] bounds the number
    of iterations; [None] means the bound was hit. *)
Fixpoint slug_loop (fuel : nat) (baseSlug : string) (existingSet : gset string)
    (uniqueSlug : string) (counter : nat) : option string :=
  if decide (uniqueSlug ∈ existingSet) then
    match fuel with
    | 0 => None
    | S fuel' =>
        slug_loop fuel' baseSlug existingSet (candidate baseSlug counter) (S counter)
    end
  else Some uniqueSlug.

(** [generateUniqueSlug(baseSlug, existingSet)]: the returned slug together
    with the set after [existingSet.add(uniqueSlug)] (the set is mutated in
    place in the source). The loop is given [size existingSet] iterations,
    which [slug_loop_first_free] shows to be enough: the result is never
    [None]. *)
Definition generateUniqueSlug (baseSlug : string) (existingSet : gset string)
    : option (string * gset string) :=
  match slug_loop (size existingSet) baseSlug existingSet baseSlug 1 with
  | Some uniqueSlug => Some (uniqueSlug, {[uniqueSlug]} ∪ existingSet)
  | None => None
  end.

(** The sequence of names the loop tries: [base], [base-1], [base-2], ... *)
Definition attempt (baseSlug : string) (k : nat) : string :=
  match k with
  | 0 => baseSlug
  | S _ => candidate baseSlug k
  end.

(** ** The clone_jobs table

    Columns as in the migration that creates the table; [source_user_id],
    [target_user_id], [created_at] and [updated_at] are neither read nor
    written by the worker and are left out. *)

Inductive JobStatus : Type := Pending | Processing | Completed | Failed.

#[global] Instance JobStatus_eq_dec : EqDecision JobStatus.
Proof. solve_decision. Defined.

Record Job : Type := mkJob {
  job_status : JobStatus;
  total_products : nat;
  processed_count : nat;
  error_message : option string;
  completed_at : option nat;
}.

(** The object passed to [.update({...})]: the columns it names. *)
Record JobPatch : Type := mkPatch {
  set_status : option JobStatus;
  set_processed_count : option nat;
  set_completed_at : option nat;
}.

#[global] Instance JobPatch_eq_dec : EqDecision JobPatch.
Proof. solve_decision. Defined.

Definition apply_patch (p : JobPatch) (j : Job) : Job :=
  {| job_status := from_option id (job_status j) (set_status p);
     total_products := total_products j;
     processed_count := from_option id (processed_count j) (set_processed_count p);
     error_message := error_message j;
     completed_at :=
       match set_completed_at p with
       | Some t => Some t
       | None => completed_at j
       end |}.

(** [{ status: 'processing' }] *)
Definition patch_processing : JobPatch :=
  {| set_status := Some Processing; set_processed_count := None; set_completed_at := None |}.

(** [{ processed_count: newProcessedCount }] *)
Definition patch_count (n : nat) : JobPatch :=
  {| set_status := None; set_processed_count := Some n; set_completed_at := None |}.

(** [{ status: 'completed', completed_at: new Date().toISOString() }] *)
Definition patch_completed (t : nat) : JobPatch :=
  {| set_status := Some Completed; set_processed_count := None; set_completed_at := Some t |}.

(** ** Requests, responses, events *)

Inductive Method : Type := OPTIONS | POST | OtherMethod.

(** The JSON body [CloneProductsRequest]. A missing string reads as the
    empty string and a missing [limit] as [0] (all falsy); [offset] is
    tested against [undefined], so its absence is kept apart. Offsets and
    limits are natural numbers, as in every request the chain itself
    issues. *)
Record Request : Type := mkRequest {
  jobId : string;
  sourceUserId : string;
  targetUserId : string;
  offset : option nat;
  limit : nat;
}.

Record Response : Type := mkResponse {
  http_status : nat;
  processed : option nat;
  errors : option nat;
  hasMore : option bool;
}.

(** Ghost trace of what an execution did, in order. *)
Inductive Event : Type :=
| EvInvoked (r : Request)
| EvPage (off lim len : nat)
| EvJobUpdate (id : string) (p : JobPatch)
| EvInsert (payload : Row)
| EvTransfer (url : string)
| EvDispatch (r : Request)
| EvResponded (r : Request) (status : nat).

(** ** The world and its environment

    The tables are lists of rows in the order in which the database yields
    them for a query without [ORDER BY]; [clone_jobs] is keyed by its
    primary key. [io_count] counts the awaited calls made so far and
    [trace] records what was done. *)

Record World : Type := mkWorld {
  products : list Row;
  product_images : list Row;
  storage : list string;
  clone_jobs : gmap string Job;
  io_count : nat;
  trace : list Event;
}.

Inductive InsertOutcome : Type :=
| InsertOk
| InsertError (msg : string)
| InsertThrows (msg : string).

Inductive ImageOutcome : Type :=
| ImageUnreachable
| ImageUploadFailed
| ImageCopied.

(** Every outcome the code cannot decide by itself, as a function of the
    position of the call in the execution: whether the page query returns
    an error, whether an insert succeeds, returns an error or throws,
    whether another awaited call of the item loop throws, how the copy of
    an image ends, whether the dispatch of the next invocation is
    rejected, and the identifiers, file names and clock readings handed
    out. Updates of [clone_jobs] are taken to succeed. *)
Record Env : Type := mkEnv {
  page_fetch_error : nat → option string;
  insert_outcome : nat → InsertOutcome;
  item_throws : nat → bool;
  image_outcome : nat → ImageOutcome;
  dispatch_rejects : nat → bool;
  fresh_id : nat → string;
  fresh_file_name : nat → string;
  now : nat → nat;
}.

(** ** State and exception monad

    A computation takes the world and returns a value or a thrown
    exception, with the new world. [OutOfFuel] is the third outcome of the
    fuel-bounded recursion of [deployed]; it is not an exception and
    [try_catch] lets it through. *)

Inductive Res (A : Type) : Type :=
| Val (a : A)
| Exn (msg : string)
| OutOfFuel.
Arguments Val {A} a.
Arguments Exn {A} msg.
Arguments OutOfFuel {A}.

Definition M (A : Type) : Type := World → Res A * World.

#[global] Instance M_ret : MRet M := λ A a w, (Val a, w).

#[global] Instance M_bind : MBind M := λ A B k c w,
  match c w with
  | (Val a, w') => k a w'
  | (Exn msg, w') => (Exn msg, w')
  | (OutOfFuel, w') => (OutOfFuel, w')
  end.

Definition throw {A} (msg : string) : M A := λ w, (Exn msg, w).

(** [try { c } catch (error) { h error }] *)
Definition try_catch {A} (c : M A) (h : string → M A) : M A := λ w,
  match c w with
  | (Exn msg, w') => h msg w'
  | other => other
  end.

Definition get_world : M World := λ w, (Val w, w).

(** World updates. *)
Definition tick (w : World) : World :=
  {| products := products w; product_images := product_images w;
     storage := storage w; clone_jobs := clone_jobs w;
     io_count := S (io_count w); trace := trace w |}.

Definition log_event (e : Event) (w : World) : World :=
  {| products := products w; product_images := product_images w;
     storage := storage w; clone_jobs := clone_jobs w;
     io_count := io_count w; trace := trace w ++ [e] |}.

Definition with_products (f : list Row → list Row) (w : World) : World :=
  {| products := f (products w); product_images := product_images w;
     storage := storage w; clone_jobs := clone_jobs w;
     io_count := io_count w; trace := trace w |}.

Definition with_images (row : Row) (file : string) (w : World) : World :=
  {| products := products w; product_images := product_images w ++ [row];
     storage := storage w ++ [file]; clone_jobs := clone_jobs w;
     io_count := io_count w; trace := trace w |}.

Definition with_jobs (f : gmap string Job → gmap string Job) (w : World) : World :=
  {| products := products w; product_images := product_images w;
     storage := storage w; clone_jobs := f (clone_jobs w);
     io_count := io_count w; trace := trace w |}.

Definition modify (f : World → World) : M unit := λ w, (Val tt, f w).

(** One awaited call on the outside world: returns its position. *)
Definition io : M nat := λ w, (Val (io_count w), tick w).

Definition log (e : Event) : M unit := modify (log_event e).

Definition out_of_fuel {A} : M A := λ w, (OutOfFuel, w).

(** ** The batch worker ([clone-user-products]) *)

Definition CONCURRENT_IMAGE_LIMIT : nat := 5.

(** The columns [processBatch] copies from the source product. *)
Definition business_fields : list string :=
  [ "title"; "description"; "price"; "discounted_price"; "status"; "category";
    "brand"; "model"; "gender"; "condition"; "video_url"; "featured_offer_price";
    "featured_offer_installment"; "featured_offer_description";
    "is_starting_price"; "short_description"; "is_visible_on_storefront";
    "external_checkout_url"; "colors"; "sizes"; "display_order" ].

(** [{ k1: product.k1, ... }]: a key whose value is [undefined] is dropped
    when the object is serialised to JSON. *)
Definition copy_fields (keys : list string) (product : Row) : Row :=
  foldr (λ k acc, match product !! k with
                  | Some v => <[k := v]> acc
                  | None => acc
                  end) ∅ keys.

(** The object given to [.from('products').insert(...)]. *)
Definition product_payload (targetUserId : string) (product : Row) : Row :=
  <["user_id" := VStr targetUserId]> (copy_fields business_fields product).

(** Windows of [n] consecutive elements ([slice(i, i + n)] for
    [i = 0, n, 2n, ...]). *)
Fixpoint chunks_go {A} (fuel n : nat) (l : list A) : list (list A) :=
  match fuel, l with
  | _, [] => []
  | 0, _ => []
  | S fuel', _ => take n l :: chunks_go fuel' n (drop n l)
  end.
Definition chunks {A} (n : nat) (l : list A) : list (list A) :=
  chunks_go (length l) n l.

(** [imageLimiter]: awaits the promises window by window and concatenates
    the windows' results. *)
Definition imageLimiter {A} (imagePromises : list A) : list A :=
  concat (chunks CONCURRENT_IMAGE_LIMIT imagePromises).

(** [imageFeaturedUrls.find(url => url !== null) || null] *)
Definition find_featured (imageFeaturedUrls : list (option string)) : option string :=
  match list_find is_Some imageFeaturedUrls with
  | Some (_, Some url) => if String.eqb url "" then None else Some url
  | _ => None
  end.

Inductive ItemResult : Type := ItemCloned | ItemInsertError.

Section Worker.

Variable env : Env.

(** The body of one entry of [imagePromises]; it catches everything and
    yields the new public URL of a featured image, or [null]. *)
Definition copy_image (newProductId : string) (image : Row) : M (option string) :=
  t ← io;
  log (EvTransfer (str_field "url" image));;
  match image_outcome env t with
  | ImageUnreachable => mret None
  | ImageUploadFailed => mret None
  | ImageCopied =>
      let newFilePath := "products/" +:+ fresh_file_name env t in
      let publicUrl := "public/" +:+ newFilePath in
      let row : Row :=
        <["product_id" := VStr newProductId]>
          (<["url" := VStr publicUrl]> (copy_fields ["is_featured"] image)) in
      modify (with_images row newFilePath);;
      mret (if truthy (image !! "is_featured") then Some publicUrl else None)
  end.

(** [productImages.map(async ...)] followed by the awaits of the limiter.
    The copies run concurrently in the source; the model performs their
    effects in list order, which is also the order in which [Promise.all]
    hands back the results. How many run at once is the subject of
    [Promises] below. *)
Fixpoint copy_images (newProductId : string) (images : list Row)
    : M (list (option string)) :=
  match images with
  | [] => mret []
  | image :: rest =>
      url ← copy_image newProductId image;
      urls ← copy_images newProductId rest;
      mret (url :: urls)
  end.

(** [.update({ featured_image_url }).eq('id', id)] on [products]. *)
Definition set_featured (id url : string) (rows : list Row) : list Row :=
  (λ r : Row, if decide (r !! "id" = Some (VStr id))
              then <["featured_image_url" := VStr url]> r else r) <$> rows.

(** The body of the [try] block for one product. The inserted row gets
    its id and its timestamps from the table's defaults. *)
Definition process_item (targetUserId : string) (product : Row) : M ItemResult :=
  t ← io;
  let payload := product_payload targetUserId product in
  log (EvInsert payload);;
  match insert_outcome env t with
  | InsertThrows msg => throw msg
  | InsertError _ => mret ItemInsertError
  | InsertOk =>
      let newId := fresh_id env t in
      let newProduct : Row :=
        <["id" := VStr newId]>
          (<["created_at" := VNum (Z.of_nat (now env t))]>
             (<["updated_at" := VNum (Z.of_nat (now env t))]> payload)) in
      modify (with_products (λ rows, rows ++ [newProduct]));;
      t1 ← io;
      (if item_throws env t1 then throw "select product_images" else mret tt);;
      w1 ← get_world;
      let productImages :=
        eq_filter "product_id" (default VNull (product !! "id")) (product_images w1) in
      imagePromises ← copy_images newId productImages;
      let imageFeaturedUrls := imageLimiter imagePromises in
      match find_featured imageFeaturedUrls with
      | Some newFeaturedImageUrl =>
          t2 ← io;
          (if item_throws env t2 then throw "update products" else mret tt);;
          modify (with_products (set_featured newId newFeaturedImageUrl))
      | None => mret tt
      end;;
      mret ItemCloned
  end.

(** The [for (const product of products)] loop with its two counters. *)
Fixpoint processBatch_loop (targetUserId : string) (products : list Row)
    (successCount errorCount : nat) : M (nat * nat) :=
  match products with
  | [] => mret (successCount, errorCount)
  | product :: rest =>
      r ← try_catch (x ← process_item targetUserId product; mret (Some x))
                    (λ _, mret None);
      match r with
      | Some ItemCloned =>
          processBatch_loop targetUserId rest (S successCount) errorCount
      | Some ItemInsertError | None =>
          processBatch_loop targetUserId rest successCount (S errorCount)
      end
  end.

Definition processBatch (products : list Row) (sourceUserId targetUserId jobId : string)
    : M (nat * nat) :=
  processBatch_loop targetUserId products 0 0.

(** [.from('clone_jobs').update(p).eq('id', id)] *)
Definition update_job_world (id : string) (p : JobPatch) (w : World) : World :=
  with_jobs (alter (apply_patch p) id) (log_event (EvJobUpdate id p) (tick w)).

Definition update_job (id : string) (p : JobPatch) : M unit :=
  modify (update_job_world id p).

(** The page query: [.eq('user_id', sourceUserId).range(offset, offset + limit - 1)].
    No ordering is requested; rows come in the order the table yields them.
    The handler calls it with [lim >= 1] only. *)
Definition page_of (sourceUserId : string) (off lim : nat) (rows : list Row) : list Row :=
  range off (off + lim - 1) (eq_filter "user_id" (VStr sourceUserId) rows).

Definition select_products_page (sourceUserId : string) (off lim : nat)
    : M (list Row + string) :=
  t ← io;
  match page_fetch_error env t with
  | Some msg => mret (inr msg)
  | None =>
      w ← get_world;
      let page := page_of sourceUserId off lim (products w) in
      log (EvPage off lim (length page));;
      mret (inl page)
  end.

Definition next_request (r : Request) (off : nat) : Request :=
  {| jobId := jobId r; sourceUserId := sourceUserId r; targetUserId := targetUserId r;
     offset := Some (off + limit r); limit := limit r |}.

(** The [Deno.serve] handler. [fetch] is the awaited network call that
    posts a request to the function's own URL. *)
Definition serve (fetch : Request → M unit) (method : Method) (r : Request) : M Response :=
  match method with
  | OPTIONS => mret (mkResponse 200 None None None)
  | OtherMethod => mret (mkResponse 405 None None None)
  | POST =>
    try_catch
      (match offset r with
       | None => mret (mkResponse 400 None None None)
       | Some off =>
         if (String.eqb (jobId r) "" || String.eqb (sourceUserId r) ""
             || String.eqb (targetUserId r) "" || (limit r =? 0))%bool
         then mret (mkResponse 400 None None None)
         else
           fetched ← select_products_page (sourceUserId r) off (limit r);
           match fetched with
           | inr msg => throw ("Error fetching products: " +:+ msg)
           | inl [] =>
               w ← get_world;
               update_job (jobId r) (patch_completed (now env (io_count w)));;
               mret (mkResponse 200 (Some 0) None (Some false))
           | inl products =>
               update_job (jobId r) patch_processing;;
               '(successCount, errorCount) ←
                 processBatch products (sourceUserId r) (targetUserId r) (jobId r);
               _ ← io;
               w ← get_world;
               let jobData := clone_jobs w !! jobId r in
               let newProcessedCount :=
                 from_option processed_count 0 jobData + successCount in
               update_job (jobId r) (patch_count newProcessedCount);;
               let more := length products =? limit r in
               (if more
                then try_catch (fetch (next_request r off)) (λ _, mret tt)
                else
                  w' ← get_world;
                  update_job (jobId r) (patch_completed (now env (io_count w'))));;
               mret (mkResponse 200 (Some successCount) (Some errorCount) (Some more))
           end
       end)
      (λ _, mret (mkResponse 500 None None None))
  end.

(** The global [fetch] on the function's own URL: the promise it returns
    settles when the invoked handler has produced its response, or rejects. *)
Definition network_fetch (callee : Request → M Response) (r : Request) : M unit :=
  t ← io;
  log (EvDispatch r);;
  if dispatch_rejects env t then throw "fetch failed"
  else callee r;; mret tt.

(** The deployed function: each invocation may invoke the function again. *)
Fixpoint deployed (fuel : nat) (r : Request) : M Response :=
  match fuel with
  | 0 => out_of_fuel
  | S fuel' =>
      log (EvInvoked r);;
      resp ← serve (network_fetch (deployed fuel')) POST r;
      log (EvResponded r (http_status resp));;
      mret resp
  end.

End Worker.

(** ** Vocabulary of the statements *)

Definition is_transfer (e : Event) : Prop :=
  match e with EvTransfer _ => True | _ => False end.

(** Number of products owned by [user]. *)
Definition source_count (user : string) (w : World) : nat :=
  length (eq_filter "user_id" (VStr user) (products w)).

(** The events [processBatch] logs. *)
Definition is_item_event (e : Event) : Prop :=
  match e with EvInsert _ | EvTransfer _ => True | _ => False end.

(** The objects passed to [products.insert], in order. *)
Definition inserts (evs : list Event) : list Row :=
  omap (λ e, match e with EvInsert payload => Some payload | _ => None end) evs.

(** No per-item failure: every insert succeeds and nothing throws. *)
Definition calm_items (env : Env) : Prop :=
  (∀ t, insert_outcome env t = InsertOk) ∧ (∀ t, item_throws env t = false).

(** The body passes the [Missing required fields] test. *)
Definition valid_request (r : Request) : Prop :=
  jobId r ≠ "" ∧ sourceUserId r ≠ "" ∧ targetUserId r ≠ "" ∧ limit r ≠ 0.

(** The world in which [processBatch] starts: page fetched, job marked. *)
Definition batch_start (r : Request) (off : nat) (w : World) : World :=
  update_job_world (jobId r) patch_processing
    (log_event
       (EvPage off (limit r)
          (length (page_of (sourceUserId r) off (limit r) (products w))))
       (tick w)).

(** The world after the progress update, given the world [w1] left by
    [processBatch] and its success count. *)
Definition batch_counted (r : Request) (successCount : nat) (w1 : World) : World :=
  update_job_world (jobId r)
    (patch_count (from_option processed_count 0 (clone_jobs w1 !! jobId r) + successCount))
    (tick w1).

(** The world after [update({ status: 'completed', completed_at })]. *)
Definition mark_completed (env : Env) (r : Request) (w : World) : World :=
  update_job_world (jobId r) (patch_completed (now env (io_count w))) w.

(** The world after a successful page query. *)
Definition page_fetched (r : Request) (off : nat) (w : World) : World :=
  log_event
    (EvPage off (limit r) (length (page_of (sourceUserId r) off (limit r) (products w))))
    (tick w).

(** The updates written to [clone_jobs], in order. *)
Definition job_updates (evs : list Event) : list (string * JobPatch) :=
  omap (λ e, match e with EvJobUpdate id p => Some (id, p) | _ => None end) evs.

(** The job table after the updates [ups]. *)
Definition replay (ups : list (string * JobPatch)) (jobs : gmap string Job)
    : gmap string Job :=
  foldl (λ m up, alter (apply_patch up.2) up.1 m) jobs ups.

(** The three objects the worker ever passes to [clone_jobs.update]. *)
Definition worker_patch (p : JobPatch) : Prop :=
  p = patch_processing ∨ (∃ n, p = patch_count n) ∨ (∃ t, p = patch_completed t).

(** Scans a trace: a job is marked completed only when the page fetched
    last was shorter than the limit. [short] tells whether it was. *)
Fixpoint completed_after_short_page (short : bool) (evs : list Event) : bool :=
  match evs with
  | [] => true
  | EvPage _ lim len :: evs' => completed_after_short_page (len <? lim) evs'
  | EvJobUpdate _ p :: evs' =>
      (if decide (set_status p = Some Completed) then short else true)
      && completed_after_short_page short evs'
  | _ :: evs' => completed_after_short_page short evs'
  end.

Definition well_traced (evs : list Event) : Prop :=
  Forall (λ up, worker_patch up.2) (job_updates evs) ∧
  ∀ short, completed_after_short_page short evs = true.

(** [c] extends the trace by a well-formed block of events and changes the
    job table only through the updates it logs. *)
Definition well_run {A} (c : M A) : Prop :=
  ∀ w, ∃ evs,
    trace (c w).2 = trace w ++ evs ∧
    clone_jobs (c w).2 = replay (job_updates evs) (clone_jobs w) ∧
    well_traced evs.

(** The events of an invocation up to its progress update. *)
Definition batch_events (r : Request) (off len n : nat) (items : list Event)
    : list Event :=
  [EvPage off (limit r) len; EvJobUpdate (jobId r) patch_processing]
  ++ items ++ [EvJobUpdate (jobId r) (patch_count n)].

(** Some update among [ups] set the status of job [id] to 'completed'. *)
Definition reached_completed (id : string) (ups : list (string * JobPatch)) : Prop :=
  Exists (λ up, up.1 = id ∧ set_status up.2 = Some Completed) ups.

(** The request [r] at another offset. *)
Definition with_offset (r : Request) (off : nat) : Request :=
  {| jobId := jobId r; sourceUserId := sourceUserId r; targetUserId := targetUserId r;
     offset := Some off; limit := limit r |}.




(** ** Concrete inputs *)

Definition calm_env : Env :=
  {| page_fetch_error := λ _, None;
     insert_outcome := λ _, InsertOk;
     item_throws := λ _, false;
     image_outcome := λ _, ImageCopied;
     dispatch_rejects := λ _, false;
     fresh_id := λ t, "new-" +:+ pretty t;
     fresh_file_name := λ t, "img-" +:+ pretty t;
     now := λ t, t |}.

Definition demo_product (i : nat) (user : string) : Row :=
  {[ "id" := VStr ("p" +:+ pretty i); "user_id" := VStr user;
     "title" := VStr ("item " +:+ pretty i); "slug" := VStr "chair";
     "created_at" := VNum (Z.of_nat i) ]}.

Definition demo_job (st : JobStatus) (total : nat) (done_at : option nat) : Job :=
  {| job_status := st; total_products := total; processed_count := 0;
     error_message := None; completed_at := done_at |}.

(** [n] products of account "src" and a pending job for them. *)
Definition demo_world (n : nat) : World :=
  {| products := (λ i, demo_product i "src") <$> seq 0 n;
     product_images := []; storage := [];
     clone_jobs := {[ "job" := demo_job Pending n None ]};
     io_count := 0; trace := [] |}.

Definition demo_request (lim : nat) : Request :=
  {| jobId := "job"; sourceUserId := "src"; targetUserId := "dst";
     offset := Some 0; limit := lim |}.

Definition ceil_div (n l : nat) : nat := (n + l - 1) / l.

(** Who was invoked, dispatched and answered, in order (requests are told
    apart by their offset). *)
Definition lifecycle (evs : list Event) : list (string * option nat) :=
  omap (λ e, match e with
             | EvInvoked r => Some ("invoked", offset r)
             | EvDispatch r => Some ("dispatched", offset r)
             | EvResponded r _ => Some ("responded", offset r)
             | _ => None
             end) evs.

(** An environment in which the second insert returns an error and the
    third one throws. *)
Definition flaky_env : Env :=
  {| page_fetch_error := λ _, None;
     insert_outcome := λ t, if decide (t = 2) then InsertError "duplicate key"
                            else if decide (t = 3) then InsertThrows "network"
                            else InsertOk;
     item_throws := λ _, false;
     image_outcome := λ _, ImageUnreachable;
     dispatch_rejects := λ _, false;
     fresh_id := λ t, "new-" +:+ pretty t;
     fresh_file_name := λ t, "img-" +:+ pretty t;
     now := λ t, t |}.

(** An environment that rejects every dispatch. *)
Definition rejecting_env : Env :=
  {| page_fetch_error := λ _, None;
     insert_outcome := λ _, InsertOk;
     item_throws := λ _, false;
     image_outcome := λ _, ImageCopied;
     dispatch_rejects := λ _, true;
     fresh_id := λ t, "new-" +:+ pretty t;
     fresh_file_name := λ t, "img-" +:+ pretty t;
     now := λ t, t |}.

(** One product of "src" and a job that is already in the state [st]. *)
Definition settled_world (st : JobStatus) (done_at : option nat) : World :=
  {| products := [demo_product 0 "src"];
     product_images := []; storage := [];
     clone_jobs := {[ "job" := demo_job st 1 done_at ]};
     io_count := 0; trace := [] |}.

(** ** The bulk copy ([copy-products-between-users]) *)

(** [const { id, created_at, updated_at, ...productData } = product] *)
Definition productData (product : Row) : Row :=
  delete "id" (delete "created_at" (delete "updated_at" product)).

(** [products.map(product => ({ ...productData, slug: uniqueSlug,
    user_id: targetUserId, created_at: now, updated_at: now }))], with
    [existingSlugSet] mutated by each call of [generateUniqueSlug]. The
    clock reading is a parameter. *)
Fixpoint productsToInsert (products : list Row) (existingSlugSet : gset string)
    (targetUserId : string) (clock : Z) : option (list Row) :=
  match products with
  | [] => Some []
  | product :: rest =>
      match generateUniqueSlug (str_field "slug" product) existingSlugSet with
      | None => None
      | Some (uniqueSlug, existingSlugSet') =>
          match productsToInsert rest existingSlugSet' targetUserId clock with
          | None => None
          | Some rows =>
              Some (<["updated_at" := VNum clock]>
                      (<["created_at" := VNum clock]>
                         (<["user_id" := VStr targetUserId]>
                            (<["slug" := VStr uniqueSlug]> (productData product))))
                    :: rows)
          end
      end
  end.


(** ** Page ordering *)







(** ** Scheduling of the image transfers

    [productImages.map(async (image) => { ... await fetch(image.url) ... })]
    calls the async callback once per image, and each call runs at once up
    to its first [await], which issues the fetch of that image. The loop
    of [imageLimiter] comes afterwards and only awaits the promises so
    created, [CONCURRENT_IMAGE_LIMIT] at a time. The main task is a list of
    actions; a transfer can settle only while the main task is suspended
    at an [await]. *)

Module Promises.

Inductive Act : Type :=
| Start (i : nat)
| AwaitAll (ids : list nat).

(** The actions of [productImages.map(async ...)] for [n] images. *)
Definition imagePromises (n : nat) : list Act := Start <$> seq 0 n.

(** The actions of the loop of [imageLimiter]: one [await Promise.all] per
    window [slice(i, i + CONCURRENT_IMAGE_LIMIT)]. *)
Definition imageLimiter_awaits (n : nat) : list Act :=
  AwaitAll <$> chunks CONCURRENT_IMAGE_LIMIT (seq 0 n).

Definition replicate_assets (n : nat) : list Act :=
  imagePromises n ++ imageLimiter_awaits n.

(** Remaining actions of the main task, and the transfers in flight. *)
Definition Config : Type := list Act * gset nat.

Inductive step : Config → Config → Prop :=
| step_start i prog inflight :
    step (Start i :: prog, inflight) (prog, {[i]} ∪ inflight)
| step_settle i ids prog inflight :
    i ∈ inflight →
    step (AwaitAll ids :: prog, inflight) (AwaitAll ids :: prog, inflight ∖ {[i]})
| step_resume ids prog inflight :
    (∀ i, i ∈ ids → i ∉ inflight) →
    step (AwaitAll ids :: prog, inflight) (prog, inflight).

End Promises.

(** ** Frames of a chain of invocations *)

(** From [w] to [w'] no job disappears, no processed_count decreases, and
    only the job [id] may differ. *)
Definition job_frame (id : string) (w w' : World) : Prop :=
  ∀ id' j, clone_jobs w !! id' = Some j →
    ∃ j', clone_jobs w' !! id' = Some j' ∧
          processed_count j ≤ processed_count j' ∧
          (id' ≠ id → j' = j).

(** The row belongs to the account [user]. *)
Definition owned_by (user : string) (row : Row) : Prop :=
  row !! "user_id" = Some (VStr user).

(** If the table consisted of [base] followed by rows of [tgt] before, it
    does so afterwards. *)
Definition rows_kept (base : list Row) (tgt : string) (w w' : World) : Prop :=
  ∀ new, products w = base ++ new → Forall (owned_by tgt) new →
    ∃ new', products w' = base ++ new' ∧ Forall (owned_by tgt) new'.




(** An environment in which the page query fails. *)
Definition failing_query_env : Env :=
  {| page_fetch_error := λ _, Some "timeout";
     insert_outcome := λ _, InsertOk;
     item_throws := λ _, false;
     image_outcome := λ _, ImageCopied;
     dispatch_rejects := λ _, false;
     fresh_id := λ t, "new-" +:+ pretty t;
     fresh_file_name := λ t, "img-" +:+ pretty t;
     now := λ t, t |}.

(** One product of "src" with two images, the second one featured. *)
Definition gallery_world : World :=
  {| products := [<["featured_image_url" := VStr "old/url"]> (demo_product 0 "src")];
     product_images :=
       [ {[ "product_id" := VStr "p0"; "url" := VStr "u1"; "is_featured" := VBool false ]};
         {[ "product_id" := VStr "p0"; "url" := VStr "u2"; "is_featured" := VBool true ]} ];
     storage := [];
     clone_jobs := {[ "job" := demo_job Pending 1 None ]};
     io_count := 0; trace := [] |}.

(** An environment in which every insert succeeds and the query that
    follows it throws. *)
Definition throwing_env : Env :=
  {| page_fetch_error := λ _, None;
     insert_outcome := λ _, InsertOk;
     item_throws := λ _, true;
     image_outcome := λ _, ImageCopied;
     dispatch_rejects := λ _, false;
     fresh_id := λ t, "new-" +:+ pretty t;
     fresh_file_name := λ t, "img-" +:+ pretty t;
     now := λ t, t |}.

(** ** The bulk copy handler ([copy-products-between-users])

    The four tables the handler reads and writes. *)

Record Store : Type := mkStore {
  store_products : list Row;
  user_product_categories : list Row;
  store_product_images : list Row;
  product_price_tiers : list Row;
}.

(** How an awaited call on the database ends: with data, with an error in
    its result, or with a rejected promise. *)
Inductive Outcome : Type :=
| Succeeds
| Fails (msg : string)
| Rejects (msg : string).

(** The insert of the copies may also come back without error and without
    rows. *)
Inductive BulkOutcome : Type :=
| RowsInserted
| NothingInserted
| BulkFails (msg : string)
| BulkRejects (msg : string).

(** What one invocation cannot decide by itself: whether the two
    environment variables are set, the outcome of each of its awaited
    calls, the ids the products table gives to the inserted rows (by
    position in the insert) and the clock. A call that fails or is
    rejected writes nothing. *)
Record CopyEnv : Type := mkCopyEnv {
  configured : bool;
  on_fetch_products : Outcome;
  on_fetch_categories : Outcome;
  on_insert_categories : Outcome;
  on_fetch_slugs : Outcome;
  on_insert_products : BulkOutcome;
  on_fetch_images : Outcome;
  on_insert_images : Outcome;
  on_fetch_tiers : Outcome;
  on_insert_tiers : Outcome;
  new_product_id : nat → string;
  copy_clock : Z;
}.

(** The JSON body [CopyProductsRequest]. A missing id reads as the empty
    string (both are falsy); [productIds] is [None] when it is missing or
    not an array. *)
Record CopyProductsRequest : Type := mkCopyRequest {
  copy_sourceUserId : string;
  copy_targetUserId : string;
  productIds : option (list string);
}.

Record CopyStats : Type := mkStats {
  copiedProducts : nat;
  copiedImages : nat;
  copiedPriceTiers : nat;
  copiedCategories : nat;
}.

Record CopyResponse : Type := mkCopyResponse {
  copy_status : nat;
  stats : option CopyStats;
}.

(** A step of the handler goes on with a value, returns a response, or
    does not come back. *)
Inductive Flow (A : Type) : Type :=
| Continue (a : A)
| Return (resp : CopyResponse)
| Diverges.
Arguments Continue {A} a.
Arguments Return {A} resp.
Arguments Diverges {A}.

Definition Handler (A : Type) : Type := Store → Flow A * Store.

#[global] Instance Handler_ret : MRet Handler := λ A a st, (Continue a, st).

#[global] Instance Handler_bind : MBind Handler := λ A B k c st,
  match c st with
  | (Continue a, st') => k a st'
  | (Return resp, st') => (Return resp, st')
  | (Diverges, st') => (Diverges, st')
  end.

(** [return new Response(..., { status })] without stats. *)
Definition respond {A} (status : nat) : Handler A := λ st,
  (Return (mkCopyResponse status None), st).

(** An awaited query: [Some data], or [None] when the result carries an
    error. A rejected promise reaches the [catch] of the handler, which
    answers 500. *)
Definition select (o : Outcome) (query : Store → list Row)
    : Handler (option (list Row)) := λ st,
  match o with
  | Succeeds => (Continue (Some (query st)), st)
  | Fails _ => (Continue None, st)
  | Rejects _ => (Return (mkCopyResponse 500 None), st)
  end.

(** An awaited insert: tells whether it went through. *)
Definition insert_into (o : Outcome) (write : Store → Store) : Handler bool := λ st,
  match o with
  | Succeeds => (Continue true, write st)
  | Fails _ => (Continue false, st)
  | Rejects _ => (Return (mkCopyResponse 500 None), st)
  end.

(** [.in(col, ids)]: the rows whose column [col] holds one of [ids]. *)
Definition in_filter (col : string) (ids : list string) (rows : list Row) : list Row :=
  filter (λ r : Row, r !! col ∈ (Some ∘ VStr) <$> ids) rows.

Definition add_categories_rows (rows : list Row) (st : Store) : Store :=
  {| store_products := store_products st;
     user_product_categories := user_product_categories st ++ rows;
     store_product_images := store_product_images st;
     product_price_tiers := product_price_tiers st |}.

Definition add_products_rows (rows : list Row) (st : Store) : Store :=
  {| store_products := store_products st ++ rows;
     user_product_categories := user_product_categories st;
     store_product_images := store_product_images st;
     product_price_tiers := product_price_tiers st |}.

Definition add_images_rows (rows : list Row) (st : Store) : Store :=
  {| store_products := store_products st;
     user_product_categories := user_product_categories st;
     store_product_images := store_product_images st ++ rows;
     product_price_tiers := product_price_tiers st |}.

Definition add_tiers_rows (rows : list Row) (st : Store) : Store :=
  {| store_products := store_products st;
     user_product_categories := user_product_categories st;
     store_product_images := store_product_images st;
     product_price_tiers := product_price_tiers st ++ rows |}.

(** [Set.prototype.add] on a set kept in insertion order. *)
Definition set_add (x : string) (set : list string) : list string :=
  if decide (x ∈ set) then set else set ++ [x].

(** [Map.prototype.get] on the pairs written by [Map.prototype.set], in
    the order of the writes: the last write to the key. *)
Definition map_get (key : option val) (entries : list (option val * option val))
    : option val :=
  match list_find (λ entry, entry.1 = key) (reverse entries) with
  | Some (_, (_, v)) => v
  | None => None
  end.

(** [productIdMapping]: old id to new id, by position; positions without
    an inserted row are skipped. *)
Fixpoint productIdMapping (products insertedProducts : list Row)
    : list (option val * option val) :=
  match products, insertedProducts with
  | originalProduct :: products', inserted :: insertedProducts' =>
      (originalProduct !! "id", inserted !! "id")
      :: productIdMapping products' insertedProducts'
  | _, _ => []
  end.

(** [{ id, created_at, ...imageData } = image] *)
Definition imageData (image : Row) : Row :=
  delete "id" (delete "created_at" image).

(** [{ id, created_at, updated_at, ...tierData } = tier] *)
Definition tierData (tier : Row) : Row :=
  delete "id" (delete "created_at" (delete "updated_at" tier)).

(** [productImages.map(...).filter(Boolean)]: the images whose product has
    a (truthy) new id, moved to that id. *)
Definition imagesToInsert (clock : Z) (mapping : list (option val * option val))
    (productImages : list Row) : list Row :=
  omap (λ image : Row,
          match map_get (image !! "product_id") mapping with
          | Some newProductId =>
              if truthy (Some newProductId)
              then Some (<["created_at" := VNum clock]>
                           (<["product_id" := newProductId]> (imageData image)))
              else None
          | None => None
          end) productImages.

Definition tiersToInsert (clock : Z) (mapping : list (option val * option val))
    (priceTiers : list Row) : list Row :=
  omap (λ tier : Row,
          match map_get (tier !! "product_id") mapping with
          | Some newProductId =>
              if truthy (Some newProductId)
              then Some (<["updated_at" := VNum clock]>
                           (<["created_at" := VNum clock]>
                              (<["product_id" := newProductId]> (tierData tier))))
              else None
          | None => None
          end) priceTiers.

(** The rows the products table stores for an insert: each gets its id. *)
Definition inserted_rows (cenv : CopyEnv) (rows : list Row) : list Row :=
  imap (λ i (row : Row), <["id" := VStr (new_product_id cenv i)]> row) rows.

Section CopyHandler.

(** [String.prototype.trim]. *)
Variable trim : string → string.
Variable cenv : CopyEnv.

(** The body of [products.forEach] that collects the category names. *)
Definition add_categories (uniqueCategories : list string) (product : Row)
    : list string :=
  match product !! "category" with
  | Some (VArr cats) =>
      foldl (λ set cat, if String.eqb cat "" then set else set_add (trim cat) set)
            uniqueCategories cats
  | Some (VStr category) =>
      if String.eqb category "" then uniqueCategories
      else
        let trimmedCat := trim category in
        if String.eqb trimmedCat "" then uniqueCategories
        else set_add trimmedCat uniqueCategories
  | _ => uniqueCategories
  end.

Definition uniqueCategories (products : list Row) : list string :=
  foldl add_categories [] products.

Definition category_row (targetUserId name : string) : Row :=
  {[ "user_id" := VStr targetUserId; "name" := VStr name;
     "created_at" := VNum (copy_clock cenv); "updated_at" := VNum (copy_clock cenv) ]}.

(** [Array.from(uniqueCategories).filter(...).map(...)] *)
Definition categoriesToCreate (targetUserId : string) (names : list string)
    (existingCategories : option (list Row)) : list Row :=
  let existingCategoryNames :=
    (λ cat : Row, cat !! "name") <$> default [] existingCategories in
  category_row targetUserId
    <$> filter (λ cat, Some (VStr cat) ∉ existingCategoryNames) names.

(** "Copy categories first": yields [stats.copiedCategories]. *)
Definition copy_categories (products : list Row) (targetUserId : string) : Handler nat :=
  let names := uniqueCategories products in
  if length names =? 0 then mret 0
  else
    existingCategories ←
      select (on_fetch_categories cenv)
        (λ st, eq_filter "user_id" (VStr targetUserId) (user_product_categories st));
    let rows := categoriesToCreate targetUserId names existingCategories in
    if length rows =? 0 then mret 0
    else
      inserted ← insert_into (on_insert_categories cenv) (add_categories_rows rows);
      mret (if inserted : bool then length rows else 0).

(** [new Set(existingSlugs?.map(p => p.slug) || [])]; the error of the
    query is not looked at. *)
Definition existingSlugSet_of (existingSlugs : option (list Row)) : gset string :=
  list_to_set (str_field "slug" <$> default [] existingSlugs).

(** Prepares and inserts the copies: yields [insertedProducts]. *)
Definition copy_products (products : list Row) (targetUserId : string)
    : Handler (list Row) :=
  existingSlugs ←
    select (on_fetch_slugs cenv)
      (λ st, eq_filter "user_id" (VStr targetUserId) (store_products st));
  match productsToInsert products (existingSlugSet_of existingSlugs) targetUserId
          (copy_clock cenv) with
  | None => λ st, (Diverges, st)
  | Some rows =>
      match on_insert_products cenv with
      | RowsInserted =>
          let insertedProducts := inserted_rows cenv rows in
          if length insertedProducts =? 0 then respond 400
          else λ st, (Continue insertedProducts, add_products_rows insertedProducts st)
      | NothingInserted => respond 400
      | BulkFails _ => respond 500
      | BulkRejects _ => respond 500
      end
  end.

(** "Copy product images": yields [stats.copiedImages]. *)
Definition copy_product_images (ids : list string)
    (mapping : list (option val * option val)) : Handler nat :=
  productImages ←
    select (on_fetch_images cenv)
      (λ st, in_filter "product_id" ids (store_product_images st));
  match productImages with
  | None => mret 0
  | Some productImages =>
      let rows := imagesToInsert (copy_clock cenv) mapping productImages in
      if length rows =? 0 then mret 0
      else
        inserted ← insert_into (on_insert_images cenv) (add_images_rows rows);
        mret (if inserted : bool then length rows else 0)
  end.

(** "Copy price tiers": yields [stats.copiedPriceTiers]. *)
Definition copy_price_tiers (ids : list string)
    (mapping : list (option val * option val)) : Handler nat :=
  priceTiers ←
    select (on_fetch_tiers cenv)
      (λ st, in_filter "product_id" ids (product_price_tiers st));
  match priceTiers with
  | None => mret 0
  | Some priceTiers =>
      let rows := tiersToInsert (copy_clock cenv) mapping priceTiers in
      if length rows =? 0 then mret 0
      else
        inserted ← insert_into (on_insert_tiers cenv) (add_tiers_rows rows);
        mret (if inserted : bool then length rows else 0)
  end.

(** The [Deno.serve] handler; [body] is [None] when [req.json()] throws. *)
Definition copy_products_between_users (method : Method)
    (body : option CopyProductsRequest) : Handler CopyResponse :=
  match method with
  | OPTIONS => mret (mkCopyResponse 200 None)
  | _ =>
    if negb (configured cenv) then respond 500
    else
      match body with
      | None => respond 400
      | Some requestData =>
        let sourceUserId := copy_sourceUserId requestData in
        let targetUserId := copy_targetUserId requestData in
        match productIds requestData with
        | None => respond 400
        | Some ids =>
          if (String.eqb sourceUserId "" || String.eqb targetUserId "")%bool
          then respond 400
          else if length ids =? 0 then respond 400
          else
            products ←
              select (on_fetch_products cenv)
                (λ st, in_filter "id" ids
                         (eq_filter "user_id" (VStr sourceUserId) (store_products st)));
            match products with
            | None => respond 500
            | Some [] => respond 404
            | Some products =>
                copiedCategories ← copy_categories products targetUserId;
                insertedProducts ← copy_products products targetUserId;
                let mapping := productIdMapping products insertedProducts in
                copiedImages ← copy_product_images ids mapping;
                copiedPriceTiers ← copy_price_tiers ids mapping;
                mret (mkCopyResponse 200
                        (Some {| copiedProducts := length insertedProducts;
                                 copiedImages := copiedImages;
                                 copiedPriceTiers := copiedPriceTiers;
                                 copiedCategories := copiedCategories |}))
            end
        end
      end
  end.

(** One invocation: the response, if the handler answers, and the store
    it leaves. *)
Definition copy_handler (method : Method) (body : option CopyProductsRequest)
    (st : Store) : option CopyResponse * Store :=
  match copy_products_between_users method body st with
  | (Continue resp, st') | (Return resp, st') => (Some resp, st')
  | (Diverges, st') => (None, st')
  end.

End CopyHandler.

(** A [trim] for the examples: drops the spaces at both ends. *)
Fixpoint trim_start (s : string) : string :=
  match s with
  | String a s0 => if Ascii.eqb a (Ascii.ascii_of_nat 32) then trim_start s0 else s
  | EmptyString => s
  end.

Definition trim_spaces (s : string) : string :=
  String.rev (trim_start (String.rev (trim_start s))).

(** ** Vocabulary of the bulk copy *)

(** The request passes the two validations of the body. *)
Definition valid_copy_request (body : option CopyProductsRequest) : Prop :=
  ∃ requestData ids,
    body = Some requestData ∧ productIds requestData = Some ids ∧
    copy_sourceUserId requestData ≠ "" ∧ copy_targetUserId requestData ≠ "" ∧
    ids ≠ [].

(** The products the handler fetches for a request. *)
Definition products_to_copy (requestData : CopyProductsRequest) (st : Store)
    : list Row :=
  in_filter "id" (default [] (productIds requestData))
    (eq_filter "user_id" (VStr (copy_sourceUserId requestData)) (store_products st)).

(** The store [st] with the rows appended to its four tables. *)
Definition store_plus (st : Store) (c p i t : list Row) : Store :=
  add_tiers_rows t (add_images_rows i (add_products_rows p (add_categories_rows c st))).

(** The request reaches the copy. *)
Definition reaches_copy (cenv : CopyEnv) (method : Method)
    (requestData : CopyProductsRequest) (st : Store) : Prop :=
  method ≠ OPTIONS ∧ configured cenv = true ∧
  is_Some (productIds requestData) ∧ productIds requestData ≠ Some [] ∧
  copy_sourceUserId requestData ≠ "" ∧ copy_targetUserId requestData ≠ "" ∧
  on_fetch_products cenv = Succeeds ∧ products_to_copy requestData st ≠ [].

(** The category names one product contributes: each non-empty element of
    an array, trimmed (possibly to the empty name), or a non-empty string
    whose trimmed form is not empty. *)
Definition names_of (trim : string → string) (product : Row) (name : string) : Prop :=
  match product !! "category" with
  | Some (VArr cats) => ∃ cat, cat ∈ cats ∧ cat ≠ "" ∧ name = trim cat
  | Some (VStr category) => category ≠ "" ∧ name = trim category ∧ name ≠ ""
  | _ => False
  end.


(** An environment of the bulk copy in which every call succeeds, but
    for the query of the target's slugs and the query of the images. *)
Definition copy_env (slugs images : Outcome) : CopyEnv :=
  {| configured := true;
     on_fetch_products := Succeeds;
     on_fetch_categories := Succeeds;
     on_insert_categories := Succeeds;
     on_fetch_slugs := slugs;
     on_insert_products := RowsInserted;
     on_fetch_images := images;
     on_insert_images := Succeeds;
     on_fetch_tiers := Succeeds;
     on_insert_tiers := Succeeds;
     new_product_id := λ i, "copy-" +:+ pretty i;
     copy_clock := 0 |}.

(** "dst" owns one product and "src" two, all with the slug "chair"; one
    image belongs to a product of "src" and one to the product of "dst". *)
Definition demo_store : Store :=
  {| store_products :=
       [ demo_product 0 "dst";
         <["category" := VStr " tools "]> (demo_product 1 "src");
         demo_product 2 "src" ];
     user_product_categories := [];
     store_product_images :=
       [ {[ "id" := VStr "i1"; "product_id" := VStr "p1"; "url" := VStr "u1" ]};
         {[ "id" := VStr "i0"; "product_id" := VStr "p0"; "url" := VStr "u0" ]} ];
     product_price_tiers :=
       [ {[ "id" := VStr "t2"; "product_id" := VStr "p2"; "min_quantity" := VNum 10 ]} ] |}.

Definition demo_copy_request : CopyProductsRequest :=
  {| copy_sourceUserId := "src"; copy_targetUserId := "dst";
     productIds := Some ["p0"; "p1"; "p2"] |}.

(** * Properties *)

(** Unfolds one layer of monadic plumbing. *)
Ltac run_io :=
  unfold mbind, M_bind, mret, M_ret, io, log, modify, throw, try_catch, get_world;
  simpl.

#[local] Arguments Nat.eqb : simpl never.

(** ** Slug resolver *)

Lemma append_nonempty_ne (s t : string) : t ≠ "" → s ≠ s +:+ t.
Proof.
  intros Ht H. apply Ht.
  induction s as [|a s IH]; simpl in H; [done|].
  injection H as H. by apply IH.
Qed.

Lemma candidate_inj (baseSlug : string) : Inj (=) (=) (candidate baseSlug).
Proof.
  intros j k H. unfold candidate in H.
  apply (inj (String.app baseSlug)) in H.
  simpl in H. injection H as H. by apply pretty_nat_inj in H.
Qed.

Lemma attempt_inj (baseSlug : string) : Inj (=) (=) (attempt baseSlug).
Proof.
  intros [|j] [|k] H; simpl in H.
  - done.
  - exfalso. by apply (append_nonempty_ne baseSlug ("-" +:+ pretty (S k))).
  - exfalso. symmetry in H.
    by apply (append_nonempty_ne baseSlug ("-" +:+ pretty (S j))).
  - by apply candidate_inj in H.
Qed.

(** Pigeonhole: if the first [n] attempts are all taken, the set has at
    least [n] elements. *)
Lemma attempts_taken_size (baseSlug : string) (existingSet : gset string) (n : nat) :
  (∀ j, j < n → attempt baseSlug j ∈ existingSet) → n ≤ size existingSet.
Proof.
  intros Hall.
  assert (Hnd : NoDup (attempt baseSlug <$> seq 0 n)).
  { apply NoDup_fmap_2; [apply attempt_inj | apply NoDup_seq]. }
  assert (Hsub : list_to_set (attempt baseSlug <$> seq 0 n) ⊆ existingSet).
  { intros x Hx. apply elem_of_list_to_set, list_elem_of_fmap in Hx.
    destruct Hx as (j & -> & Hj). apply elem_of_seq in Hj. apply Hall. lia. }
  apply subseteq_size in Hsub.
  rewrite size_list_to_set, length_fmap, length_seq in Hsub; done.
Qed.

(** The loop invariant: entering an iteration with [uniqueSlug] the [c]-th
    attempt and all earlier attempts taken, enough fuel remains to reach
    the first free attempt. *)
Lemma slug_loop_first_free (baseSlug : string) (existingSet : gset string) :
  ∀ fuel c,
    (∀ j, j < c → attempt baseSlug j ∈ existingSet) →
    size existingSet ≤ fuel + c →
    ∃ k, c ≤ k ∧
      (slug_loop fuel baseSlug existingSet (attempt baseSlug c) (S c)
        = Some (attempt baseSlug k)) ∧
      (attempt baseSlug k ∉ existingSet) ∧
      (∀ j, j < k → attempt baseSlug j ∈ existingSet).
Proof.
  induction fuel as [|fuel IH]; intros c Hprev Hfuel; simpl;
    destruct (decide (attempt baseSlug c ∈ existingSet)) as [Hin|Hout].
  - exfalso.
    assert (S c ≤ size existingSet); [|lia].
    apply (attempts_taken_size baseSlug). intros j Hj.
    destruct (decide (j = c)) as [->|]; [done | apply Hprev; lia].
  - exists c. repeat split; [lia | done | done].
  - destruct (IH (S c)) as (k & Hk & Hloop & Hfree & Hall).
    + intros j Hj. destruct (decide (j = c)) as [->|]; [done | apply Hprev; lia].
    + lia.
    + exists k. repeat split; [lia | exact Hloop | done | done].
  - exists c. repeat split; [lia | done | done].
Qed.

(** ** Item processing *)

Lemma copy_images_spec (env : Env) (newId : string) (images : list Row) :
  ∀ w, ∃ urls w' evs,
    copy_images env newId images w = (Val urls, w') ∧
    products w' = products w ∧
    clone_jobs w' = clone_jobs w ∧
    trace w' = trace w ++ evs ∧ Forall is_transfer evs.
Proof.
  induction images as [|image rest IH]; intros w.
  - exists [], w, []. rewrite app_nil_r. by repeat split.
  - simpl. unfold copy_image. run_io.
    destruct (image_outcome env (io_count w)); simpl.
    all: match goal with
         | |- context [copy_images _ _ _ ?w0] =>
             destruct (IH w0) as (urls & w' & evs & -> & Hp & Hj & Ht & Hev)
         end.
    all: eexists _, w', (EvTransfer (str_field "url" image) :: evs).
    all: repeat split; [done | done | rewrite Ht; simpl; by rewrite <- app_assoc
                       | by constructor].
Qed.

Lemma eq_filter_app (col : string) (v : val) (l1 l2 : list Row) :
  eq_filter col v (l1 ++ l2) = eq_filter col v l1 ++ eq_filter col v l2.
Proof. unfold eq_filter. apply filter_app. Qed.

Lemma eq_filter_other_user (src target : string) (row : Row) :
  src ≠ target → row !! "user_id" = Some (VStr target) →
  eq_filter "user_id" (VStr src) [row] = [].
Proof.
  intros Hne Hrow. unfold eq_filter. rewrite filter_cons, Hrow.
  case_decide as H; [|done]. congruence.
Qed.

Lemma eq_filter_set_featured_length (v : val) (id url : string) (rows : list Row) :
  length (eq_filter "user_id" v (set_featured id url rows))
  = length (eq_filter "user_id" v rows).
Proof.
  unfold eq_filter, set_featured.
  induction rows as [|r rows IH]; [done|].
  rewrite fmap_cons, !filter_cons.
  assert (Hu : (if decide (r !! "id" = Some (VStr id))
                then <["featured_image_url" := VStr url]> r else r) !! "user_id"
               = r !! "user_id").
  { case_decide; [by rewrite lookup_insert_ne | done]. }
  rewrite Hu.
  destruct (decide (r !! "user_id" = Some v)); [cbn [length]; f_equal|]; apply IH.
Qed.

Lemma payload_user_id (target : string) (product : Row) :
  product_payload target product !! "user_id" = Some (VStr target).
Proof. unfold product_payload. apply lookup_insert_eq. Qed.

Lemma process_item_spec (env : Env) (target : string) (product : Row) (w : World) :
  ∃ res w' evs,
    process_item env target product w = (res, w') ∧
    res ≠ OutOfFuel ∧
    clone_jobs w' = clone_jobs w ∧
    (∀ src, src ≠ target → source_count src w' = source_count src w) ∧
    trace w' = trace w ++ EvInsert (product_payload target product) :: evs ∧
    Forall is_transfer evs ∧
    (insert_outcome env (io_count w) = InsertOk →
     (∀ t, item_throws env t = false) → res = Val ItemCloned) ∧
    (res = Val ItemCloned → insert_outcome env (io_count w) = InsertOk).
Proof.
  unfold process_item. run_io.
  destruct (insert_outcome env (io_count w)) as [|msg|msg] eqn:Hins; simpl.
  2,3: eexists _, _, []; repeat split; try done.
  destruct (item_throws env (S (io_count w))) eqn:Hthrow1; simpl.
  { eexists _, _, []. repeat split; try done.
    - intros src Hne. unfold source_count. simpl.
      rewrite eq_filter_app, eq_filter_other_user with (target := target);
        [by rewrite app_nil_r | done |].
      by rewrite !lookup_insert_ne, payload_user_id.
    - intros _ Hcalm. by rewrite Hcalm in Hthrow1. }
  match goal with
  | |- context [copy_images _ _ _ ?w0] =>
      destruct (copy_images_spec env (fresh_id env (io_count w))
                  (eq_filter "product_id" (default VNull (product !! "id"))
                     (product_images w)) w0)
        as (urls & w1 & evs & Hrun & Hp & Hj & Ht & Hev)
  end.
  simpl in Hrun. rewrite Hrun. simpl.
  assert (Hsrc : ∀ src, src ≠ target → source_count src w1 = source_count src w).
  { intros src Hne. unfold source_count. rewrite Hp. simpl.
    rewrite eq_filter_app, eq_filter_other_user with (target := target);
      [by rewrite app_nil_r | done |].
    by rewrite !lookup_insert_ne, payload_user_id. }
  destruct (find_featured (imageLimiter urls)) as [url|]; simpl.
  2: { exists (Val ItemCloned), w1, evs. repeat split; try done.
       simpl. rewrite Ht. simpl. by rewrite <- app_assoc. }
  destruct (item_throws env (io_count w1)) eqn:Hthrow2; simpl.
  - eexists _, _, evs. repeat split; try done.
    + simpl. rewrite Ht. simpl. by rewrite <- app_assoc.
    + intros _ Hcalm. by rewrite Hcalm in Hthrow2.
  - eexists _, _, evs. repeat split; try done.
    + intros src Hne. unfold source_count. simpl.
      rewrite eq_filter_set_featured_length. by apply Hsrc.
    + simpl. rewrite Ht. simpl. by rewrite <- app_assoc.
Qed.

Lemma transfer_is_item_event (evs : list Event) :
  Forall is_transfer evs → Forall is_item_event evs.
Proof. intros H. eapply Forall_impl; [exact H|]. by intros []. Qed.

Lemma inserts_transfers (evs : list Event) : Forall is_transfer evs → inserts evs = [].
Proof. induction 1 as [|[] evs H _ IH]; try done. Qed.

Lemma processBatch_loop_spec (env : Env) (target : string) (page : list Row) :
  ∀ s0 e0 w, ∃ s e w' evs,
    processBatch_loop env target page s0 e0 w = (Val (s, e), w') ∧
    s + e = s0 + e0 + length page ∧
    clone_jobs w' = clone_jobs w ∧
    (∀ src, src ≠ target → source_count src w' = source_count src w) ∧
    trace w' = trace w ++ evs ∧
    Forall is_item_event evs ∧
    inserts evs = product_payload target <$> page ∧
    (calm_items env → s = s0 + length page ∧ e = e0) ∧
    ((∀ t, insert_outcome env t ≠ InsertOk) → s = s0 ∧ e = e0 + length page).
Proof.
  induction page as [|product rest IH]; intros s0 e0 w.
  - exists s0, e0, w, []. simpl. rewrite app_nil_r.
    repeat split; try done; lia.
  - destruct (process_item_spec env target product w)
      as (res & w1 & evs1 & Hrun & Hfuel & Hj1 & Hsrc1 & Ht1 & Hev1 & Hcalm1 & Hok1).
    simpl. unfold mbind, M_bind, try_catch at 1. rewrite Hrun.
    assert (Hnext : ∀ s1 e1,
      s1 + e1 = S (s0 + e0) →
      (calm_items env → s1 = S s0 ∧ e1 = e0) →
      ((∀ t, insert_outcome env t ≠ InsertOk) → s1 = s0 ∧ e1 = S e0) →
      ∃ s e w' evs,
        processBatch_loop env target rest s1 e1 w1 = (Val (s, e), w') ∧
        s + e = s0 + e0 + length (product :: rest) ∧
        clone_jobs w' = clone_jobs w ∧
        (∀ src, src ≠ target → source_count src w' = source_count src w) ∧
        trace w' = trace w ++ evs ∧
        Forall is_item_event evs ∧
        inserts evs = product_payload target <$> (product :: rest) ∧
        (calm_items env → s = s0 + length (product :: rest) ∧ e = e0) ∧
        ((∀ t, insert_outcome env t ≠ InsertOk) →
         s = s0 ∧ e = e0 + length (product :: rest))).
    { intros s1 e1 Hsum1 Hc1 Hf1.
      destruct (IH s1 e1 w1)
        as (s & e & w' & evs & Hloop & Hsum & Hj & Hsrc & Ht & Hev & Hins & Hcalm & Hfail).
      exists s, e, w', (EvInsert (product_payload target product) :: evs1 ++ evs).
      split; [done|]. split; [simpl; lia|]. split; [congruence|].
      split; [intros src Hne; by rewrite Hsrc, Hsrc1|].
      split; [rewrite Ht, Ht1; by rewrite <- app_assoc|].
      split.
      { constructor; [done|]. apply Forall_app. split; [|done].
        by apply transfer_is_item_event. }
      split.
      { unfold inserts in *. simpl. rewrite omap_app.
        fold (inserts evs1). rewrite (inserts_transfers evs1 Hev1). simpl.
        by f_equal. }
      split.
      - intros Hc. destruct (Hc1 Hc) as [-> ->]. destruct (Hcalm Hc) as [-> ->].
        simpl. lia.
      - intros Hf. destruct (Hf1 Hf) as [-> ->]. destruct (Hfail Hf) as [-> ->].
        simpl. lia. }
    destruct res as [[|]|msg|]; [| | |done]; simpl.
    + apply Hnext; [lia|done|].
      intros Hf. exfalso. by apply (Hf (io_count w)), Hok1.
    + apply Hnext; [lia| |done].
      intros [Hi Ht']. by specialize (Hcalm1 (Hi _) Ht').
    + apply Hnext; [lia| |done].
      intros [Hi Ht']. by specialize (Hcalm1 (Hi _) Ht').
Qed.

(** ** One invocation of the handler *)

Lemma valid_request_guard (r : Request) :
  valid_request r →
  (String.eqb (jobId r) "" || String.eqb (sourceUserId r) ""
   || String.eqb (targetUserId r) "" || (limit r =? 0))%bool = false.
Proof.
  intros (Hj & Hs & Ht & Hl).
  apply String.eqb_neq in Hj, Hs, Ht. apply Nat.eqb_neq in Hl.
  by rewrite Hj, Hs, Ht, Hl.
Qed.

Lemma serve_nonempty (env : Env) (fetch : Request → M unit) (r : Request)
    (off : nat) (w : World) :
  valid_request r → offset r = Some off →
  page_fetch_error env (io_count w) = None →
  page_of (sourceUserId r) off (limit r) (products w) ≠ [] →
  let page := page_of (sourceUserId r) off (limit r) (products w) in
  ∃ s e w1 evs,
    processBatch env page (sourceUserId r) (targetUserId r) (jobId r) (batch_start r off w)
      = (Val (s, e), w1) ∧
    s + e = length page ∧
    clone_jobs w1 = clone_jobs (batch_start r off w) ∧
    (∀ src, src ≠ targetUserId r → source_count src w1 = source_count src w) ∧
    trace w1 = trace (batch_start r off w) ++ evs ∧
    Forall is_item_event evs ∧
    inserts evs = product_payload (targetUserId r) <$> page ∧
    (calm_items env → s = length page ∧ e = 0) ∧
    serve env fetch POST r w =
      if length page =? limit r then
        match fetch (next_request r off) (batch_counted r s w1) with
        | (OutOfFuel, w') => (OutOfFuel, w')
        | (_, w') => (Val (mkResponse 200 (Some s) (Some e) (Some true)), w')
        end
      else
        (Val (mkResponse 200 (Some s) (Some e) (Some false)),
         mark_completed env r (batch_counted r s w1)).
Proof.
  intros Hvalid Hoff Hfetch Hpage page.
  destruct (processBatch_loop_spec env (targetUserId r) page 0 0 (batch_start r off w))
    as (s & e & w1 & evs & Hrun & Hsum & Hj & Hsrc & Ht & Hev & Hins & Hcalm & _).
  exists s, e, w1, evs.
  split; [exact Hrun|]. split; [lia|]. split; [done|].
  split; [intros src Hne; by rewrite Hsrc|].
  split; [done|]. split; [done|]. split; [done|].
  split; [intros Hc; destruct (Hcalm Hc); split; lia|].
  unfold serve. rewrite Hoff, (valid_request_guard r Hvalid).
  unfold select_products_page, try_catch at 1. run_io. rewrite Hfetch. simpl.
  fold page. destruct page as [|p rest] eqn:Hp; [done|].
  unfold update_job at 1. run_io.
  unfold processBatch in *.
  assert (Hstart : batch_start r off w
            = update_job_world (jobId r) patch_processing
                (log_event (EvPage off (limit r) (S (length rest))) (tick w))).
  { unfold batch_start. subst page. by rewrite Hp. }
  rewrite <- Hstart, Hrun. simpl. fold (batch_counted r s w1).
  change (S (length rest)) with (length (p :: rest)).
  destruct (length (p :: rest) =? limit r); simpl.
  - by destruct (fetch (next_request r off) (batch_counted r s w1)) as [[| |] w'].
  - done.
Qed.

Lemma serve_empty (env : Env) (fetch : Request → M unit) (r : Request)
    (off : nat) (w : World) :
  valid_request r → offset r = Some off →
  page_fetch_error env (io_count w) = None →
  page_of (sourceUserId r) off (limit r) (products w) = [] →
  serve env fetch POST r w =
    (Val (mkResponse 200 (Some 0) None (Some false)),
     mark_completed env r (page_fetched r off w)).
Proof.
  intros Hvalid Hoff Hfetch Hpage.
  unfold serve. rewrite Hoff, (valid_request_guard r Hvalid).
  unfold select_products_page, try_catch at 1. run_io. rewrite Hfetch. simpl.
  unfold page_fetched, mark_completed. rewrite Hpage. reflexivity.
Qed.

Lemma serve_fetch_error (env : Env) (fetch : Request → M unit) (r : Request)
    (off : nat) (w : World) (msg : string) :
  valid_request r → offset r = Some off →
  page_fetch_error env (io_count w) = Some msg →
  serve env fetch POST r w = (Val (mkResponse 500 None None None), tick w).
Proof.
  intros Hvalid Hoff Hfetch.
  unfold serve. rewrite Hoff, (valid_request_guard r Hvalid).
  unfold select_products_page, try_catch at 1. run_io. by rewrite Hfetch.
Qed.

Lemma serve_invalid (env : Env) (fetch : Request → M unit) (r : Request) (w : World) :
  ¬ (valid_request r ∧ is_Some (offset r)) →
  serve env fetch POST r w = (Val (mkResponse 400 None None None), w).
Proof.
  intros Hinv. unfold serve, try_catch. run_io.
  destruct (offset r) as [off|] eqn:Hoff; [|done].
  destruct (String.eqb (jobId r) "" || String.eqb (sourceUserId r) ""
            || String.eqb (targetUserId r) "" || (limit r =? 0))%bool eqn:Hguard; [done|].
  exfalso. apply Hinv. split; [|by eexists].
  apply orb_false_elim in Hguard as [Hguard Hl].
  apply orb_false_elim in Hguard as [Hguard Ht].
  apply orb_false_elim in Hguard as [Hj Hs].
  apply String.eqb_neq in Hj, Hs, Ht. apply Nat.eqb_neq in Hl. done.
Qed.

Lemma valid_request_dec (r : Request) :
  Decision (valid_request r ∧ is_Some (offset r)).
Proof. unfold valid_request. apply _. Qed.

(** ** Traces and job updates *)

Lemma job_updates_app (l1 l2 : list Event) :
  job_updates (l1 ++ l2) = job_updates l1 ++ job_updates l2.
Proof. apply omap_app. Qed.

Lemma job_updates_items (evs : list Event) :
  Forall is_item_event evs → job_updates evs = [].
Proof. induction 1 as [|[] evs H _ IH]; try done. Qed.

Lemma replay_app (l1 l2 : list (string * JobPatch)) (jobs : gmap string Job) :
  replay (l1 ++ l2) jobs = replay l2 (replay l1 jobs).
Proof. apply foldl_app. Qed.

Lemma completed_after_short_page_app (l1 l2 : list Event) :
  ∀ short, ∃ short',
    completed_after_short_page short (l1 ++ l2)
    = completed_after_short_page short l1 && completed_after_short_page short' l2.
Proof.
  induction l1 as [|e l1 IH]; intros short; simpl.
  - by exists short.
  - destruct e; simpl; try apply IH.
    destruct (IH short) as [short' ->]. exists short'. by rewrite andb_assoc.
Qed.

Lemma completed_after_short_page_items (l1 l2 : list Event) (short : bool) :
  Forall is_item_event l1 →
  completed_after_short_page short (l1 ++ l2) = completed_after_short_page short l2.
Proof. induction 1 as [|[] l1 H _ IH]; try done. Qed.

Lemma well_traced_nil : well_traced [].
Proof. split; [constructor | done]. Qed.

Lemma well_traced_app (l1 l2 : list Event) :
  well_traced l1 → well_traced l2 → well_traced (l1 ++ l2).
Proof.
  intros [Hp1 Hc1] [Hp2 Hc2]. split.
  - rewrite job_updates_app. by apply Forall_app.
  - intros short.
    destruct (completed_after_short_page_app l1 l2 short) as [short' ->].
    by rewrite Hc1, Hc2.
Qed.

Lemma well_traced_neutral (e : Event) :
  match e with EvPage _ _ _ | EvJobUpdate _ _ => False | _ => True end →
  well_traced [e].
Proof. destruct e; try done; intros _; (split; [constructor | done]). Qed.

Lemma well_traced_batch (r : Request) (off len n : nat) (items : list Event) :
  Forall is_item_event items → well_traced (batch_events r off len n items).
Proof.
  intros Hitems. unfold batch_events. split.
  - rewrite !job_updates_app, (job_updates_items items Hitems). simpl.
    repeat first [apply Forall_nil_2 | apply Forall_cons_2];
      simpl; unfold worker_patch; eauto.
  - intros short. simpl. by rewrite completed_after_short_page_items.
Qed.

Lemma well_traced_batch_completed (r : Request) (off len n t : nat) (items : list Event) :
  Forall is_item_event items → len < limit r →
  well_traced (batch_events r off len n items
               ++ [EvJobUpdate (jobId r) (patch_completed t)]).
Proof.
  intros Hitems Hlen. unfold batch_events. split.
  - rewrite !job_updates_app, (job_updates_items items Hitems). simpl.
    repeat first [apply Forall_nil_2 | apply Forall_cons_2];
      simpl; unfold worker_patch; eauto.
  - intros short. simpl. rewrite <- app_assoc.
    rewrite completed_after_short_page_items by done. simpl.
    apply Nat.ltb_lt in Hlen. by rewrite Hlen.
Qed.

Lemma well_traced_empty_page (r : Request) (off t : nat) :
  limit r ≠ 0 →
  well_traced [EvPage off (limit r) 0; EvJobUpdate (jobId r) (patch_completed t)].
Proof.
  intros Hl. split.
  - repeat first [apply Forall_nil_2 | apply Forall_cons_2];
      simpl; unfold worker_patch; eauto.
  - intros short. simpl.
    assert ((0 <? limit r) = true) as -> by (apply Nat.ltb_lt; lia). done.
Qed.

Lemma well_run_done {A} (c : M A) :
  (∀ w, (c w).2 = w) → well_run c.
Proof.
  intros H w. exists []. rewrite H, app_nil_r.
  split; [done|]. split; [done|]. apply well_traced_nil.
Qed.

Lemma page_of_length_le (src : string) (off lim : nat) (rows : list Row) :
  lim ≠ 0 → length (page_of src off lim rows) ≤ lim.
Proof.
  intros Hl. unfold page_of, range. rewrite length_take. lia.
Qed.

Lemma serve_well_run (env : Env) (fetch : Request → M unit) (m : Method) (r : Request) :
  (∀ r', well_run (fetch r')) → well_run (serve env fetch m r).
Proof.
  intros Hfetch.
  destruct m; [by apply well_run_done | | by apply well_run_done].
  destruct (valid_request_dec r) as [[Hvalid [off Hoff]]|Hinv].
  2: { apply well_run_done. intros w. by rewrite serve_invalid. }
  intros w.
  destruct (page_fetch_error env (io_count w)) as [msg|] eqn:Herr.
  { rewrite (serve_fetch_error env fetch r off w msg) by done.
    exists []. simpl. rewrite app_nil_r.
    split; [done|]. split; [done|]. apply well_traced_nil. }
  destruct (decide (page_of (sourceUserId r) off (limit r) (products w) = []))
    as [Hpage|Hpage].
  { rewrite (serve_empty env fetch r off w) by done.
    eexists. split; [|split].
    - unfold mark_completed, page_fetched. simpl. rewrite Hpage. simpl.
      rewrite <- app_assoc. reflexivity.
    - done.
    - apply well_traced_empty_page. apply Hvalid. }
  destruct (serve_nonempty env fetch r off w Hvalid Hoff Herr Hpage)
    as (s & e & w1 & items & _ & Hsum & Hj & _ & Ht & Hitems & _ & _ & ->).
  set (page := page_of (sourceUserId r) off (limit r) (products w)) in *.
  set (n := from_option processed_count 0 (clone_jobs w1 !! jobId r) + s).
  assert (Hpre : trace (batch_counted r s w1)
                 = trace w ++ batch_events r off (length page) n items).
  { unfold batch_counted, batch_events. simpl. rewrite Ht. unfold batch_start.
    simpl. rewrite <- !app_assoc. reflexivity. }
  assert (Hjobs : clone_jobs (batch_counted r s w1)
                  = replay (job_updates (batch_events r off (length page) n items))
                      (clone_jobs w)).
  { unfold batch_counted, batch_events.
    rewrite !job_updates_app, (job_updates_items items Hitems). simpl.
    unfold n. by rewrite Hj. }
  destruct (length page =? limit r) eqn:Hfull.
  - destruct (Hfetch (next_request r off) (batch_counted r s w1))
      as (evs & Hft & Hfj & Hfw).
    exists (batch_events r off (length page) n items ++ evs).
    assert (Hsnd : ∀ x : Res unit * World,
      (let (r0, w') := x in
       match r0 with
       | OutOfFuel => (OutOfFuel, w')
       | _ => (Val (mkResponse 200 (Some s) (Some e) (Some true)), w')
       end).2 = x.2).
    { by intros [[| |] ?]. }
    rewrite Hsnd. split; [|split].
    + rewrite Hft, Hpre. by rewrite <- app_assoc.
    + rewrite Hfj, Hjobs, job_updates_app. by rewrite replay_app.
    + apply well_traced_app; [by apply well_traced_batch | done].
  - eexists (batch_events r off (length page) n items ++ [_]). split; [|split].
    + unfold mark_completed. simpl. fold n. rewrite Ht. unfold batch_start. simpl.
      unfold batch_events. fold page. rewrite <- !app_assoc. reflexivity.
    + unfold mark_completed. simpl. fold n.
      rewrite job_updates_app, replay_app. unfold batch_events.
      rewrite !job_updates_app, (job_updates_items items Hitems). simpl.
      unfold n. by rewrite Hj.
    + apply well_traced_batch_completed; [done|].
      apply Nat.eqb_neq in Hfull.
      pose proof (page_of_length_le (sourceUserId r) off (limit r) (products w)
                    (proj2 (proj2 (proj2 Hvalid)))).
      fold page in H. lia.
Qed.

Lemma well_run_log_then {A} (e : Event) (c : M A) :
  match e with EvPage _ _ _ | EvJobUpdate _ _ => False | _ => True end →
  well_run c → well_run (log e;; c).
Proof.
  intros He Hc w. destruct (Hc (log_event e w)) as (evs & Ht & Hj & Hw).
  exists ([e] ++ evs). run_io. split; [|split].
  - rewrite Ht. simpl. by rewrite <- app_assoc.
  - rewrite Hj. by destruct e.
  - apply (well_traced_app [e] evs); [by apply well_traced_neutral | done].
Qed.

Lemma well_run_then_log {A} (c : M A) (f : A → Event) :
  (∀ a, match f a with EvPage _ _ _ | EvJobUpdate _ _ => False | _ => True end) →
  well_run c → well_run (a ← c; log (f a);; mret a).
Proof.
  intros Hf Hc w. destruct (Hc w) as (evs & Ht & Hj & Hw).
  run_io. destruct (c w) as [[a|msg|] w']; simpl in *.
  - exists (evs ++ [f a]). split; [|split].
    + rewrite Ht. by rewrite <- app_assoc.
    + rewrite Hj, job_updates_app, replay_app.
      specialize (Hf a). by destruct (f a).
    + apply well_traced_app; [done | apply well_traced_neutral, Hf].
  - by exists evs.
  - by exists evs.
Qed.

Lemma network_fetch_well_run (env : Env) (callee : Request → M Response) (r : Request) :
  (∀ r', well_run (callee r')) → well_run (network_fetch env callee r).
Proof.
  intros Hcallee w. unfold network_fetch. run_io.
  destruct (dispatch_rejects env (io_count w)); simpl.
  - exists [EvDispatch r]. split; [done|]. split; [done|].
    by apply well_traced_neutral.
  - destruct (Hcallee r (log_event (EvDispatch r) (tick w))) as (evs & Ht & Hj & Hw).
    exists ([EvDispatch r] ++ evs).
    assert (Hsnd : ∀ x : Res Response * World,
      (let (r0, w') := x in
       match r0 with
       | Val _ => (Val (), w')
       | Exn msg => (Exn msg, w')
       | OutOfFuel => (OutOfFuel, w')
       end).2 = x.2).
    { by intros [[| |] ?]. }
    rewrite Hsnd. split; [|split].
    + rewrite Ht. simpl. by rewrite <- app_assoc.
    + by rewrite Hj.
    + apply (well_traced_app [EvDispatch r] evs);
        [by apply well_traced_neutral | done].
Qed.

Lemma deployed_S (env : Env) (fuel : nat) (r : Request) :
  deployed env (S fuel) r =
    (log (EvInvoked r);;
     resp ← serve env (network_fetch env (deployed env fuel)) POST r;
     log (EvResponded r (http_status resp));;
     mret resp).
Proof. reflexivity. Qed.

Lemma deployed_well_run (env : Env) (fuel : nat) :
  ∀ r, well_run (deployed env fuel r).
Proof.
  induction fuel as [|fuel IH]; intros r.
  - by apply well_run_done.
  - rewrite deployed_S. apply well_run_log_then; [done|].
    apply (well_run_then_log _ (λ resp, EvResponded r (http_status resp))); [done|].
    apply serve_well_run. intros r'. by apply network_fetch_well_run.
Qed.

Lemma replay_cons (up : string * JobPatch) (ups : list (string * JobPatch))
    (jobs : gmap string Job) :
  replay (up :: ups) jobs = replay ups (alter (apply_patch up.2) up.1 jobs).
Proof. reflexivity. Qed.

Lemma replay_invariant (P : Job → Prop) (id : string) (ups : list (string * JobPatch)) :
  (∀ p j, worker_patch p → P j → P (apply_patch p j)) →
  Forall (λ up, worker_patch up.2) ups →
  ∀ jobs j, jobs !! id = Some j → P j →
  ∃ j', replay ups jobs !! id = Some j' ∧ P j'.
Proof.
  intros Hstep. induction 1 as [|[id' p] ups Hp _ IH]; intros jobs j Hj HP.
  - by exists j.
  - rewrite replay_cons. simpl in *.
    destruct (decide (id' = id)) as [->|Hne].
    + apply (IH _ (apply_patch p j)); [|by apply Hstep].
      by rewrite lookup_alter_eq, Hj.
    + apply (IH _ j); [|done]. by rewrite lookup_alter_ne.
Qed.

Lemma replay_completed_at (id : string) (ups : list (string * JobPatch)) :
  Forall (λ up, worker_patch up.2) ups →
  ∀ jobs j, jobs !! id = Some j →
  ∃ j', replay ups jobs !! id = Some j' ∧
        (is_Some (completed_at j')
         ↔ is_Some (completed_at j) ∨ reached_completed id ups).
Proof.
  unfold reached_completed.
  induction 1 as [|[id' p] ups Hp _ IH]; intros jobs j Hj.
  - exists j. split; [done|]. rewrite Exists_nil. tauto.
  - rewrite replay_cons. simpl in *.
    destruct (decide (id' = id)) as [->|Hne].
    + destruct (IH (alter (apply_patch p) id jobs) (apply_patch p j))
        as (j' & Hj' & Hiff).
      { by rewrite lookup_alter_eq, Hj. }
      exists j'. split; [done|]. rewrite Hiff, Exists_cons. simpl.
      destruct Hp as [->|[[n ->]|[t ->]]]; simpl.
      * split; [intros [|]; auto | intros [|[[_ ?]|]]; auto; done].
      * split; [intros [|]; auto | intros [|[[_ ?]|]]; auto; done].
      * split; [intros _; right; left; done | intros _; left; by eexists].
    + destruct (IH (alter (apply_patch p) id' jobs) j) as (j' & Hj' & Hiff).
      { by rewrite lookup_alter_ne. }
      exists j'. split; [done|]. rewrite Hiff, Exists_cons. simpl.
      split; [intros [|]; auto | intros [|[[? _]|]]; auto; done].
Qed.

(** ** The chain of invocations *)

Lemma deployed_S_run (env : Env) (fuel : nat) (r : Request) (w : World) :
  deployed env (S fuel) r w =
    match serve env (network_fetch env (deployed env fuel)) POST r
            (log_event (EvInvoked r) w) with
    | (Val resp, w1) => (Val resp, log_event (EvResponded r (http_status resp)) w1)
    | (Exn msg, w1) => (Exn msg, w1)
    | (OutOfFuel, w1) => (OutOfFuel, w1)
    end.
Proof.
  rewrite deployed_S. unfold mbind, M_bind, log, modify, mret, M_ret. cbv beta.
  by destruct (serve env _ POST r (log_event (EvInvoked r) w)) as [[| |] ?].
Qed.

Lemma page_of_length (src : string) (off lim : nat) (rows : list Row) :
  lim ≠ 0 →
  length (page_of src off lim rows)
  = lim `min` (length (eq_filter "user_id" (VStr src) rows) - off).
Proof.
  intros Hl. unfold page_of, range. rewrite length_take, length_drop.
  replace (S (off + lim - 1) - off) with lim by lia. done.
Qed.










(** ** The claims *)


Lemma demo_request_valid (lim : nat) : lim ≠ 0 → valid_request (demo_request lim).
Proof. by repeat split. Qed.






(** C2 (as amended). An invocation that fetched a non-empty page has, when
    it reaches its continuation decision, written to the job exactly
    [status: processing] and the new processed_count. If the page is
    shorter than the limit it then marks the job completed with a
    timestamp and answers. If the page is full it marks nothing; it calls
    [fetch] with the offset advanced by the limit and answers only from the
    world that this awaited call leaves behind (a rejection is caught). *)
Theorem continuation_decision (env : Env) (fetch : Request → M unit) (r : Request)
    (off : nat) (w : World) :
  valid_request r → offset r = Some off →
  page_fetch_error env (io_count w) = None →
  page_of (sourceUserId r) off (limit r) (products w) ≠ [] →
  ∃ s e n w_pre items,
    Forall is_item_event items ∧
    trace w_pre
      = trace w ++ batch_events r off
                     (length (page_of (sourceUserId r) off (limit r) (products w)))
                     n items ∧
    job_updates (batch_events r off
                   (length (page_of (sourceUserId r) off (limit r) (products w)))
                   n items)
      = [(jobId r, patch_processing); (jobId r, patch_count n)] ∧
    (length (page_of (sourceUserId r) off (limit r) (products w)) < limit r →
     serve env fetch POST r w
       = (Val (mkResponse 200 (Some s) (Some e) (Some false)),
          update_job_world (jobId r) (patch_completed (now env (io_count w_pre))) w_pre)) ∧
    (length (page_of (sourceUserId r) off (limit r) (products w)) = limit r →
     offset (next_request r off) = Some (off + limit r) ∧
     serve env fetch POST r w
       = match fetch (next_request r off) w_pre with
         | (OutOfFuel, w') => (OutOfFuel, w')
         | (_, w') => (Val (mkResponse 200 (Some s) (Some e) (Some true)), w')
         end).
Proof.
  intros Hvalid Hoff Herr Hpage.
  destruct (serve_nonempty env fetch r off w Hvalid Hoff Herr Hpage)
    as (s & e & w1 & items & _ & _ & Hj & _ & Ht & Hitems & _ & _ & Hserve).
  exists s, e, (from_option processed_count 0 (clone_jobs w1 !! jobId r) + s),
    (batch_counted r s w1), items.
  split; [done|]. split; [|split; [|split]].
  - unfold batch_counted, batch_events. simpl. rewrite Ht. unfold batch_start. simpl.
    repeat (rewrite <- app_assoc; simpl). reflexivity.
  - unfold batch_events.
    by rewrite !job_updates_app, (job_updates_items items Hitems).
  - intros Hlt. rewrite Hserve.
    assert ((length (page_of (sourceUserId r) off (limit r) (products w)) =? limit r)
            = false) as -> by (apply Nat.eqb_neq; lia).
    reflexivity.
  - intros Heq. split; [done|]. rewrite Hserve, Heq, Nat.eqb_refl. reflexivity.
Qed.

Lemma continuation_decision_witness :
  ∃ s e w',
    serve calm_env (λ _, mret tt) POST (demo_request 5) (demo_world 3)
      = (Val (mkResponse 200 (Some s) (Some e) (Some false)), w').
Proof.
  destruct (continuation_decision calm_env (λ _, mret tt) (demo_request 5) 0 (demo_world 3))
    as (s & e & n & w_pre & items & _ & _ & _ & Hshort & _).
  - by apply demo_request_valid.
  - reflexivity.
  - reflexivity.
  - vm_compute. discriminate.
  - exists s, e. eexists. apply Hshort. vm_compute. lia.
Defined.

(** C2, counterexample to "without waiting": two items, limit 2. The
    invocation at offset 0 dispatches offset 2 and answers only after the
    dispatched invocation has answered. *)
Lemma dispatch_is_awaited :
  lifecycle (trace (deployed calm_env 3 (demo_request 2) (demo_world 2)).2)
  = [("invoked", Some 0); ("dispatched", Some 2); ("invoked", Some 2);
     ("responded", Some 2); ("responded", Some 0)].
Proof. vm_compute. reflexivity. Qed.


Example processBatch_mixed_outcomes :
  (processBatch flaky_env (products (demo_world 4)) "src" "dst" "job" (demo_world 4)).1
  = Val (2, 2).
Proof. vm_compute. reflexivity. Qed.

Lemma worker_patch_status (p : JobPatch) :
  worker_patch p →
  set_status p = None ∨ set_status p = Some Processing ∨ set_status p = Some Completed.
Proof. intros [->|[[n ->]|[t ->]]]; simpl; auto. Qed.

Lemma worker_patch_completed_at (p : JobPatch) :
  worker_patch p →
  is_Some (set_completed_at p) ↔ set_status p = Some Completed.
Proof.
  intros [->|[[n ->]|[t ->]]]; simpl; split; try done; try by intros [? ?].
Qed.

Lemma worker_patch_not_failed (p : JobPatch) (j : Job) :
  worker_patch p → job_status j ≠ Failed → job_status (apply_patch p j) ≠ Failed.
Proof. by intros [->|[[n ->]|[t ->]]]. Qed.

(** C8. Whatever the environment does, every update that a chain of
    invocations writes to [clone_jobs] sets the status to 'processing' or
    'completed' or leaves it alone; 'completed' is written only after a
    page shorter than the limit (the empty page included) was fetched; the
    job table changes through these updates only, so a job that was not
    'failed' before is not 'failed' afterwards. *)
Theorem worker_never_writes_failed (env : Env) (fuel : nat) (r : Request) (w : World) :
  ∃ evs,
    trace (deployed env fuel r w).2 = trace w ++ evs ∧
    clone_jobs (deployed env fuel r w).2 = replay (job_updates evs) (clone_jobs w) ∧
    Forall (λ up, set_status up.2 = None ∨ set_status up.2 = Some Processing
                  ∨ set_status up.2 = Some Completed) (job_updates evs) ∧
    (∀ short, completed_after_short_page short evs = true) ∧
    (∀ id j, clone_jobs w !! id = Some j → job_status j ≠ Failed →
       ∃ j', clone_jobs (deployed env fuel r w).2 !! id = Some j'
             ∧ job_status j' ≠ Failed).
Proof.
  destruct (deployed_well_run env fuel r w) as (evs & Ht & Hj & Hpatches & Hshort).
  exists evs. split; [done|]. split; [done|]. split; [|split; [done|]].
  - eapply Forall_impl; [exact Hpatches|]. intros up. apply worker_patch_status.
  - intros id j Hid Hst. rewrite Hj.
    apply (replay_invariant (λ j, job_status j ≠ Failed) id _
             worker_patch_not_failed Hpatches _ j Hid Hst).
Qed.

(** C9. Every update a chain of invocations writes sets [completed_at] if
    and only if it sets the status to 'completed', and none clears it.
    Hence, after the run, a job has a completion timestamp if and only if
    it had one before or a 'completed' update was written to it. *)
Theorem completed_at_iff_completed (env : Env) (fuel : nat) (r : Request) (w : World) :
  ∃ evs,
    trace (deployed env fuel r w).2 = trace w ++ evs ∧
    clone_jobs (deployed env fuel r w).2 = replay (job_updates evs) (clone_jobs w) ∧
    Forall (λ up, is_Some (set_completed_at up.2) ↔ set_status up.2 = Some Completed)
      (job_updates evs) ∧
    (∀ id j, clone_jobs w !! id = Some j →
       ∃ j', clone_jobs (deployed env fuel r w).2 !! id = Some j' ∧
             (is_Some (completed_at j')
              ↔ is_Some (completed_at j) ∨ reached_completed id (job_updates evs))).
Proof.
  destruct (deployed_well_run env fuel r w) as (evs & Ht & Hj & Hpatches & Hshort).
  exists evs. split; [done|]. split; [done|]. split.
  - eapply Forall_impl; [exact Hpatches|]. intros up. apply worker_patch_completed_at.
  - intros id j Hid. rewrite Hj. by apply replay_completed_at.
Qed.

Lemma worker_patch_active (p : JobPatch) (j : Job) :
  worker_patch p →
  job_status j = Processing ∨ job_status j = Completed →
  job_status (apply_patch p j) = Processing ∨ job_status (apply_patch p j) = Completed.
Proof. intros [->|[[n ->]|[t ->]]] Hj; simpl; auto. Qed.

Lemma network_fetch_rejected (env : Env) (callee : Request → M Response) (r : Request)
    (w : World) :
  dispatch_rejects env (io_count w) = true →
  network_fetch env callee r w = (Exn "fetch failed", log_event (EvDispatch r) (tick w)).
Proof. intros Hd. unfold network_fetch. run_io. by rewrite Hd. Qed.

(** C10. The update to 'processing' does not look at the job's current
    status. Whatever that status is ('completed' and 'failed' included), an
    invocation that fetches a non-empty page first writes 'processing' to
    the job and leaves it 'processing' or 'completed'; when the page is
    full and the dispatch of the next invocation is rejected, the job is
    left 'processing' with whatever completion timestamp it had. *)
Theorem processing_write_is_unguarded (env : Env) (fuel : nat) (r : Request)
    (off : nat) (w : World) (j : Job) :
  valid_request r → offset r = Some off →
  page_fetch_error env (io_count w) = None →
  page_of (sourceUserId r) off (limit r) (products w) ≠ [] →
  clone_jobs w !! jobId r = Some j →
  ∃ evs j',
    trace (deployed env (S fuel) r w).2
      = trace w
        ++ [EvInvoked r;
            EvPage off (limit r)
              (length (page_of (sourceUserId r) off (limit r) (products w)));
            EvJobUpdate (jobId r) patch_processing]
        ++ evs ∧
    clone_jobs (deployed env (S fuel) r w).2 !! jobId r = Some j' ∧
    (job_status j' = Processing ∨ job_status j' = Completed) ∧
    (length (page_of (sourceUserId r) off (limit r) (products w)) = limit r →
     (∀ t, dispatch_rejects env t = true) →
     job_status j' = Processing ∧ completed_at j' = completed_at j).
Proof.
  intros Hvalid Hoff Herr Hpage Hj.
  rewrite deployed_S_run.
  set (w0 := log_event (EvInvoked r) w).
  set (F := network_fetch env (deployed env fuel)).
  destruct (serve_nonempty env F r off w0 Hvalid Hoff Herr Hpage)
    as (s & e & w1 & items & _ & _ & Hj1 & _ & Ht1 & Hitems & _ & _ & ->).
  change (products w0) with (products w).
  set (len := length (page_of (sourceUserId r) off (limit r) (products w))).
  set (n := from_option processed_count 0 (clone_jobs w1 !! jobId r) + s).
  set (jp := apply_patch (patch_count n) (apply_patch patch_processing j)).
  assert (Hw1_job : clone_jobs w1 !! jobId r = Some (apply_patch patch_processing j)).
  { rewrite Hj1. unfold batch_start. simpl. by rewrite lookup_alter_eq, Hj. }
  assert (Hpre_job : clone_jobs (batch_counted r s w1) !! jobId r = Some jp).
  { unfold batch_counted, jp, n. simpl. by rewrite lookup_alter_eq, Hw1_job. }
  assert (Hpre_trace : trace (batch_counted r s w1)
    = trace w ++ [EvInvoked r; EvPage off (limit r) len;
                  EvJobUpdate (jobId r) patch_processing]
      ++ items ++ [EvJobUpdate (jobId r) (patch_count n)]).
  { unfold batch_counted. simpl. rewrite Ht1. unfold batch_start. simpl.
    repeat (rewrite <- app_assoc; simpl). reflexivity. }
  destruct (len =? limit r) eqn:Hfull.
  - destruct (network_fetch_well_run env (deployed env fuel)
                (next_request r off) (deployed_well_run env fuel) (batch_counted r s w1))
      as (evs_f & Htf & Hjf & Hpatches & _).
    fold F in Htf, Hjf.
    destruct (replay_invariant
                (λ j, job_status j = Processing ∨ job_status j = Completed)
                (jobId r) (job_updates evs_f) worker_patch_active Hpatches
                _ jp Hpre_job (or_introl eq_refl)) as (j' & Hj' & Hactive).
    rewrite <- Hjf in Hj'.
    assert (Hrej : (∀ t, dispatch_rejects env t = true) →
                   job_status j' = Processing ∧ completed_at j' = completed_at j).
    { intros Hd. unfold F in Hj'. rewrite network_fetch_rejected in Hj' by apply Hd.
      change (clone_jobs (batch_counted r s w1) !! jobId r = Some j') in Hj'.
      rewrite Hpre_job in Hj'. injection Hj' as <-. done. }
    destruct (F (next_request r off) (batch_counted r s w1)) as [[[]|msg|] w'];
      simpl in *.
    + exists ((items ++ [EvJobUpdate (jobId r) (patch_count n)]) ++ evs_f
              ++ [EvResponded r 200]), j'.
      split; [|by auto].
      rewrite Htf, Hpre_trace. repeat (rewrite <- app_assoc; simpl). reflexivity.
    + exists ((items ++ [EvJobUpdate (jobId r) (patch_count n)]) ++ evs_f
              ++ [EvResponded r 200]), j'.
      split; [|by auto].
      rewrite Htf, Hpre_trace. repeat (rewrite <- app_assoc; simpl). reflexivity.
    + exists ((items ++ [EvJobUpdate (jobId r) (patch_count n)]) ++ evs_f), j'.
      split; [|by auto].
      rewrite Htf, Hpre_trace. repeat (rewrite <- app_assoc; simpl). reflexivity.
  - exists ((items ++ [EvJobUpdate (jobId r) (patch_count n)])
            ++ [EvJobUpdate (jobId r)
                  (patch_completed (now env (io_count (batch_counted r s w1))));
                EvResponded r 200]),
      (apply_patch (patch_completed (now env (io_count (batch_counted r s w1)))) jp).
    split; [|split; [|split]].
    + simpl. fold n. rewrite Ht1. unfold batch_start. simpl.
      repeat (rewrite <- app_assoc; simpl). reflexivity.
    + change (clone_jobs (mark_completed env r (batch_counted r s w1)) !! jobId r
              = Some (apply_patch
                        (patch_completed (now env (io_count (batch_counted r s w1)))) jp)).
      unfold mark_completed, jp, n. simpl.
      by rewrite !lookup_alter_eq, Hw1_job.
    + by right.
    + intros Heq. apply Nat.eqb_neq in Hfull. done.
Qed.

Lemma processing_write_is_unguarded_witness :
  ∃ j',
    clone_jobs (deployed rejecting_env 1 (demo_request 1)
                  (settled_world Completed (Some 7))).2 !! "job" = Some j' ∧
    job_status j' = Processing ∧ completed_at j' = Some 7.
Proof.
  destruct (processing_write_is_unguarded rejecting_env 0 (demo_request 1) 0
              (settled_world Completed (Some 7)) (demo_job Completed 1 (Some 7)))
    as (evs & j' & _ & Hj' & _ & Hrej).
  - by apply demo_request_valid.
  - reflexivity.
  - reflexivity.
  - vm_compute. discriminate.
  - reflexivity.
  - exists j'. split; [exact Hj'|]. apply Hrej; [vm_compute; reflexivity | done].
Defined.

Example failed_job_is_revived :
  job_status <$> clone_jobs (deployed calm_env 2 (demo_request 5)
                               (settled_world Failed None)).2 !! "job"
  = Some Completed.
Proof. vm_compute. reflexivity. Qed.

(** C7. [generateUniqueSlug] always returns. If the base is not in the
    set it returns the base; otherwise it returns the first of base-1,
    base-2, ... that is not in the set. In both cases the returned slug is
    added to the set. *)
Theorem generateUniqueSlug_spec (baseSlug : string) (existingSet : gset string) :
  (baseSlug ∉ existingSet →
   generateUniqueSlug baseSlug existingSet
   = Some (baseSlug, {[baseSlug]} ∪ existingSet)) ∧
  (baseSlug ∈ existingSet →
   ∃ k, 1 ≤ k ∧
     generateUniqueSlug baseSlug existingSet
     = Some (baseSlug +:+ "-" +:+ pretty k,
             {[baseSlug +:+ "-" +:+ pretty k]} ∪ existingSet) ∧
     ((baseSlug +:+ "-" +:+ pretty k) ∉ existingSet) ∧
     (∀ j, 1 ≤ j < k → (baseSlug +:+ "-" +:+ pretty j) ∈ existingSet)) ∧
  (generateUniqueSlug "chair" {["chair"]}
   = Some ("chair-1", {["chair-1"]} ∪ {["chair"]})) ∧
  (generateUniqueSlug "chair" ({["chair-1"]} ∪ {["chair"]})
   = Some ("chair-2", {["chair-2"]} ∪ ({["chair-1"]} ∪ {["chair"]}))).
Proof.
  destruct (slug_loop_first_free baseSlug existingSet (size existingSet) 0)
    as (k & _ & Hloop & Hfree & Hall); [intros j Hj; lia | lia |].
  change (attempt baseSlug 0) with baseSlug in Hloop.
  split; [|split; [|split]].
  - intros Hout. unfold generateUniqueSlug. rewrite Hloop.
    destruct k as [|k]; [done|]. exfalso. apply Hout, (Hall 0). lia.
  - intros Hin. destruct k as [|k]; [done|].
    exists (S k). split; [lia|]. unfold generateUniqueSlug. rewrite Hloop.
    split; [done|]. split; [done|].
    intros [|j] Hj; [lia|]. apply (Hall (S j)). lia.
  - vm_compute. reflexivity.
  - vm_compute. reflexivity.
Qed.








Lemma starts_forced (ids : list nat) (rest : list Promises.Act) :
  ∀ inflight c,
    nsteps Promises.step (length ids) ((Promises.Start <$> ids) ++ rest, inflight) c →
    c = (rest, list_to_set ids ∪ inflight).
Proof.
  induction ids as [|i ids IH]; intros inflight c Hrun; simpl in *.
  - inversion Hrun; subst. by rewrite (left_id_L ∅ (∪)).
  - inversion Hrun as [|? ? c1 ? Hstep Hrest]; subst.
    inversion Hstep; subst. apply IH in Hrest as ->. f_equal.
    by rewrite (comm_L (∪) {[i]} (list_to_set ids)), <- (assoc_L (∪)).
Qed.

Lemma starts_run (ids : list nat) (rest : list Promises.Act) :
  ∀ inflight,
    nsteps Promises.step (length ids) ((Promises.Start <$> ids) ++ rest, inflight)
      (rest, list_to_set ids ∪ inflight).
Proof.
  induction ids as [|i ids IH]; intros inflight; simpl.
  - rewrite (left_id_L ∅ (∪)). constructor.
  - eapply nsteps_l; [apply Promises.step_start|].
    rewrite (comm_L (∪) {[i]} (list_to_set ids)), <- (assoc_L (∪)). apply IH.
Qed.

(** C4, at the failing input. For an item with [n] images, the first [n]
    steps of every execution are the [n] starts, so that before the
    limiter awaits its first window all [n] transfers are in flight. With 6
    images (and with the 23 of the spec's example) that is above
    [CONCURRENT_IMAGE_LIMIT]; the windows only bound how many promises are
    awaited together. *)
Theorem all_transfers_in_flight_at_once (n : nat) :
  nsteps Promises.step n (Promises.replicate_assets n, ∅)
    (Promises.imageLimiter_awaits n, list_to_set (seq 0 n)) ∧
  (∀ c, nsteps Promises.step n (Promises.replicate_assets n, ∅) c →
        c.1 = Promises.imageLimiter_awaits n ∧ size c.2 = n) ∧
  length (chunks CONCURRENT_IMAGE_LIMIT (seq 0 23)) = 5.
Proof.
  assert (Hsize : size (list_to_set (seq 0 n) ∪ (∅ : gset nat)) = n).
  { rewrite (right_id_L ∅ (∪)), size_list_to_set, length_seq; [done|apply NoDup_seq]. }
  assert (Hrun : nsteps Promises.step n (Promises.replicate_assets n, ∅)
                   (Promises.imageLimiter_awaits n, list_to_set (seq 0 n) ∪ ∅)).
  { pose proof (starts_run (seq 0 n) (Promises.imageLimiter_awaits n) ∅) as H.
    by rewrite length_seq in H. }
  split; [|split].
  - by rewrite (right_id_L ∅ (∪)) in Hrun.
  - intros c Hc.
    pose proof (starts_forced (seq 0 n) (Promises.imageLimiter_awaits n) ∅ c) as H.
    rewrite length_seq in H. rewrite (H Hc). done.
  - reflexivity.
Qed.

Example six_images_exceed_limit :
  ∃ c, rtc Promises.step (Promises.replicate_assets 6, ∅) c
       ∧ CONCURRENT_IMAGE_LIMIT < size c.2.
Proof.
  eexists. split.
  - eapply rtc_nsteps_2. apply (starts_run (seq 0 6) (Promises.imageLimiter_awaits 6) ∅).
  - by vm_compute.
Qed.

(** The limiter hands back the results of all promises, in order. *)
Lemma imageLimiter_id {A} (l : list A) : imageLimiter l = l.
Proof.
  unfold imageLimiter, chunks, CONCURRENT_IMAGE_LIMIT.
  assert (H : ∀ fuel (l : list A), length l ≤ fuel → concat (chunks_go fuel 5 l) = l).
  { induction fuel as [|fuel IH]; intros [|x l'] Hlen; simpl in *; try done; [lia|].
    rewrite IH.
    - destruct l' as [|? [|? [|? [|? ?]]]]; done.
    - rewrite length_drop. lia. }
  by apply H.
Qed.

(** * Further properties *)

(** X1. The handler answers 400 exactly when a required field is missing
    or falsy: an empty id, an absent offset, or a limit of 0 (offset 0 is
    accepted, limit 0 is not). A rejected request leaves the world as it
    was: nothing is read, written or dispatched. *)
Theorem invalid_request_rejected (env : Env) (fetch : Request → M unit) (r : Request)
    (w : World) :
  ((serve env fetch POST r w).1 = Val (mkResponse 400 None None None)
   ↔ ¬ (valid_request r ∧ is_Some (offset r))) ∧
  (¬ (valid_request r ∧ is_Some (offset r)) → (serve env fetch POST r w).2 = w).
Proof.
  split; [split|].
  - intros H400 [Hvalid [off Hoff]].
    destruct (page_fetch_error env (io_count w)) as [msg|] eqn:Herr.
    { by rewrite (serve_fetch_error env fetch r off w msg) in H400. }
    destruct (decide (page_of (sourceUserId r) off (limit r) (products w) = []))
      as [Hpage|Hpage].
    { by rewrite (serve_empty env fetch r off w) in H400. }
    destruct (serve_nonempty env fetch r off w Hvalid Hoff Herr Hpage)
      as (s & e & w1 & items & _ & _ & _ & _ & _ & _ & _ & _ & Hserve).
    rewrite Hserve in H400.
    destruct (_ =? _); [|done].
    by destruct (fetch _ _) as [[| |] ?].
  - intros Hinv. by rewrite serve_invalid.
  - intros Hinv. by rewrite serve_invalid.
Qed.

(** X2. When the page query returns an error the invocation answers 500
    and that is all: the products and the job table are as before (the job
    is not marked failed), no page, job update or dispatch is recorded,
    and the chain ends there. *)
Theorem page_query_error_is_terminal (env : Env) (fuel : nat) (r : Request)
    (off : nat) (w : World) (msg : string) :
  valid_request r → offset r = Some off →
  page_fetch_error env (io_count w) = Some msg →
  (deployed env (S fuel) r w).1 = Val (mkResponse 500 None None None) ∧
  clone_jobs (deployed env (S fuel) r w).2 = clone_jobs w ∧
  products (deployed env (S fuel) r w).2 = products w ∧
  trace (deployed env (S fuel) r w).2 = trace w ++ [EvInvoked r; EvResponded r 500].
Proof.
  intros Hvalid Hoff Herr. rewrite deployed_S_run.
  rewrite (serve_fetch_error env _ r off _ msg) by done. simpl.
  repeat split. by rewrite <- app_assoc.
Qed.

Lemma page_query_error_is_terminal_witness :
  (deployed failing_query_env 1 (demo_request 5) (demo_world 3)).1
  = Val (mkResponse 500 None None None).
Proof.
  eapply (page_query_error_is_terminal failing_query_env 0 (demo_request 5) 0
            (demo_world 3) "timeout").
  - by apply demo_request_valid.
  - reflexivity.
  - reflexivity.
Defined.

(** X3. A request whose offset is at or beyond the number of items of the
    source account finds an empty page: the invocation marks the job
    completed, with a timestamp, whatever its processed_count is, touches
    no product, dispatches nothing and answers processed 0, hasMore false. *)
Theorem offset_beyond_end_completes_job (env : Env) (fuel : nat) (r : Request)
    (off : nat) (w : World) (j : Job) :
  valid_request r → offset r = Some off →
  page_fetch_error env (io_count w) = None →
  source_count (sourceUserId r) w ≤ off →
  clone_jobs w !! jobId r = Some j →
  ∃ w' t,
    deployed env (S fuel) r w
      = (Val (mkResponse 200 (Some 0) None (Some false)), w') ∧
    clone_jobs w' !! jobId r
      = Some {| job_status := Completed; total_products := total_products j;
                processed_count := processed_count j;
                error_message := error_message j; completed_at := Some t |} ∧
    products w' = products w ∧
    lifecycle (trace w') = lifecycle (trace w) ++ [("invoked", Some off); ("responded", Some off)].
Proof.
  intros Hvalid Hoff Herr Hoffset Hj. rewrite deployed_S_run.
  assert (Hnil : page_of (sourceUserId r) off (limit r) (products w) = []).
  { apply length_zero_iff_nil. rewrite page_of_length by apply Hvalid.
    unfold source_count in Hoffset. lia. }
  rewrite (serve_empty env _ r off (log_event (EvInvoked r) w)) by done.
  eexists _, _. split; [reflexivity|]. split; [|split].
  - simpl. rewrite lookup_alter_eq, Hj. reflexivity.
  - reflexivity.
  - simpl. unfold lifecycle. rewrite <- !app_assoc, omap_app. simpl.
    by rewrite Hoff.
Qed.

Lemma offset_beyond_end_completes_job_witness :
  ∃ w',
    deployed calm_env 1 (with_offset (demo_request 5) 7) (demo_world 3)
      = (Val (mkResponse 200 (Some 0) None (Some false)), w') ∧
    job_status <$> clone_jobs w' !! "job" = Some Completed ∧
    processed_count <$> clone_jobs w' !! "job" = Some 0.
Proof.
  destruct (offset_beyond_end_completes_job calm_env 0 (with_offset (demo_request 5) 7) 7
              (demo_world 3) (demo_job Pending 3 None))
    as (w' & t & Hrun & Hj & _).
  - by apply demo_request_valid.
  - reflexivity.
  - reflexivity.
  - vm_compute. lia.
  - reflexivity.
  - exists w'. split; [exact Hrun|]. simpl in Hj. by rewrite Hj.
Defined.

Lemma job_frame_same (id : string) (w w' : World) :
  clone_jobs w' = clone_jobs w → job_frame id w w'.
Proof. intros Heq id' j Hj. exists j. by rewrite Heq. Qed.

Lemma job_frame_trans (id : string) (w1 w2 w3 : World) :
  job_frame id w1 w2 → job_frame id w2 w3 → job_frame id w1 w3.
Proof.
  intros H12 H23 id' j Hj.
  destruct (H12 id' j Hj) as (j2 & Hj2 & Hle2 & Hne2).
  destruct (H23 id' j2 Hj2) as (j3 & Hj3 & Hle3 & Hne3).
  exists j3. split; [done|]. split; [lia|].
  intros Hne. by rewrite Hne3, Hne2.
Qed.

Lemma job_frame_alter (id : string) (w w' : World) (f : Job → Job) :
  clone_jobs w' = alter f id (clone_jobs w) →
  (∀ j, clone_jobs w !! id = Some j → processed_count j ≤ processed_count (f j)) →
  job_frame id w w'.
Proof.
  intros Heq Hf id' j Hj. rewrite Heq.
  destruct (decide (id' = id)) as [->|Hne].
  - exists (f j). rewrite lookup_alter_eq, Hj. split; [done|]. split; [by apply Hf|done].
  - exists j. by rewrite lookup_alter_ne.
Qed.

Lemma serve_job_frame (env : Env) (fetch : Request → M unit) (m : Method)
    (r : Request) (w : World) :
  (∀ r' w0, jobId r' = jobId r → job_frame (jobId r) w0 (fetch r' w0).2) →
  job_frame (jobId r) w (serve env fetch m r w).2.
Proof.
  intros Hfetch.
  destruct m; [by apply job_frame_same | | by apply job_frame_same].
  destruct (valid_request_dec r) as [[Hvalid [off Hoff]]|Hinv].
  2: { rewrite serve_invalid by done. by apply job_frame_same. }
  destruct (page_fetch_error env (io_count w)) as [msg|] eqn:Herr.
  { rewrite (serve_fetch_error env fetch r off w msg) by done. by apply job_frame_same. }
  destruct (decide (page_of (sourceUserId r) off (limit r) (products w) = []))
    as [Hpage|Hpage].
  { rewrite (serve_empty env fetch r off w) by done.
    by apply (job_frame_alter _ _ _
                (apply_patch (patch_completed (now env (io_count (page_fetched r off w)))))). }
  destruct (serve_nonempty env fetch r off w Hvalid Hoff Herr Hpage)
    as (s & e & w1 & items & _ & _ & Hj1 & _ & _ & _ & _ & _ & ->).
  assert (Hpre : job_frame (jobId r) w (batch_counted r s w1)).
  { apply (job_frame_trans _ _ w1).
    - by apply (job_frame_alter _ _ _ (apply_patch patch_processing)).
    - apply (job_frame_alter _ _ _
               (apply_patch (patch_count
                  (from_option processed_count 0 (clone_jobs w1 !! jobId r) + s))));
        [done|].
      intros j Hj. rewrite Hj. simpl. lia. }
  destruct (_ =? _).
  - apply (job_frame_trans _ _ _ _ Hpre).
    pose proof (Hfetch (next_request r off) (batch_counted r s w1) eq_refl) as Hf.
    by destruct (fetch _ _) as [[| |] ?].
  - apply (job_frame_trans _ _ _ _ Hpre).
    by apply (job_frame_alter _ _ _
                (apply_patch (patch_completed (now env (io_count (batch_counted r s w1)))))).
Qed.

Lemma deployed_job_frame (env : Env) (fuel : nat) :
  ∀ r w, job_frame (jobId r) w (deployed env fuel r w).2.
Proof.
  induction fuel as [|fuel IH]; intros r w; [by apply job_frame_same|].
  rewrite deployed_S_run.
  pose proof (serve_job_frame env (network_fetch env (deployed env fuel)) POST r
                (log_event (EvInvoked r) w)) as Hserve.
  assert (Hs : job_frame (jobId r) w
                 (serve env (network_fetch env (deployed env fuel)) POST r
                    (log_event (EvInvoked r) w)).2).
  { apply (job_frame_trans _ _ (log_event (EvInvoked r) w));
      [by apply job_frame_same|].
    apply Hserve. intros r' w0 Hid. unfold network_fetch. run_io.
    destruct (dispatch_rejects env (io_count w0)); [by apply job_frame_same|].
    rewrite <- Hid.
    apply (job_frame_trans _ _ (log_event (EvDispatch r') (tick w0)));
      [by apply job_frame_same|].
    pose proof (IH r' (log_event (EvDispatch r') (tick w0))) as Hc.
    by destruct (deployed env fuel r' _) as [[| |] ?]. }
  destruct (serve _ _ _ _ _) as [[resp|msg|] w']; simpl in *; [|done..].
  apply (job_frame_trans _ _ w'); [done | by apply job_frame_same].
Qed.

Lemma replay_missing (id : string) (ups : list (string * JobPatch)) :
  ∀ jobs : gmap string Job, jobs !! id = None → replay ups jobs !! id = None.
Proof.
  induction ups as [|[id' p] ups IH]; intros jobs Hnone; [done|].
  rewrite replay_cons. apply IH. simpl.
  destruct (decide (id' = id)) as [->|Hne].
  - by rewrite lookup_alter_eq, Hnone.
  - by rewrite lookup_alter_ne.
Qed.

Lemma worker_patch_keeps_fields (total : nat) (err : option string) (p : JobPatch) (j : Job) :
  worker_patch p →
  total_products j = total ∧ error_message j = err →
  total_products (apply_patch p j) = total ∧ error_message (apply_patch p j) = err.
Proof. by intros [->|[[n ->]|[t ->]]]. Qed.

(** X4. A chain of invocations for one job creates no row in [clone_jobs],
    deletes none, never writes [total_products] or [error_message], and
    leaves every job other than its own exactly as it was. *)
Theorem chain_touches_only_its_job (env : Env) (fuel : nat) (r : Request) (w : World)
    (id : string) :
  (clone_jobs w !! id = None → clone_jobs (deployed env fuel r w).2 !! id = None) ∧
  (∀ j, clone_jobs w !! id = Some j →
     ∃ j', clone_jobs (deployed env fuel r w).2 !! id = Some j' ∧
           total_products j' = total_products j ∧
           error_message j' = error_message j ∧
           (id ≠ jobId r → j' = j)).
Proof.
  destruct (deployed_well_run env fuel r w) as (evs & _ & Hjobs & Hpatches & _).
  split.
  - intros Hnone. rewrite Hjobs. by apply replay_missing.
  - intros j Hj.
    destruct (deployed_job_frame env fuel r w id j Hj) as (j' & Hj' & _ & Hother).
    exists j'. split; [done|].
    destruct (replay_invariant
                (λ j0, total_products j0 = total_products j
                       ∧ error_message j0 = error_message j)
                id (job_updates evs)
                (worker_patch_keeps_fields (total_products j) (error_message j))
                Hpatches _ j Hj (conj eq_refl eq_refl)) as (j'' & Hj'' & Ht & He).
    rewrite <- Hjobs, Hj' in Hj''. injection Hj'' as <-. done.
Qed.










(** X8. When the job row does not exist the updates hit no row: a chain
    leaves [clone_jobs] exactly as it was. The page is cloned all the
    same: with a short non-empty page the invocation answers 200 and has
    attempted one insert per item. *)
Theorem missing_job_row_is_ignored (env : Env) (fuel : nat) (r : Request)
    (off : nat) (w : World) :
  clone_jobs w !! jobId r = None →
  clone_jobs (deployed env fuel r w).2 = clone_jobs w ∧
  (valid_request r → offset r = Some off →
   page_fetch_error env (io_count w) = None →
   page_of (sourceUserId r) off (limit r) (products w) ≠ [] →
   length (page_of (sourceUserId r) off (limit r) (products w)) < limit r →
   ∃ s e w',
     serve env (network_fetch env (deployed env fuel)) POST r w
       = (Val (mkResponse 200 (Some s) (Some e) (Some false)), w') ∧
     inserts (drop (length (trace w)) (trace w'))
       = product_payload (targetUserId r)
           <$> page_of (sourceUserId r) off (limit r) (products w)).
Proof.
  intros Hnone. split.
  - destruct (deployed_well_run env fuel r w) as (evs & _ & Hjobs & _).
    apply map_eq. intros id. destruct (clone_jobs w !! id) as [j|] eqn:Hid.
    + destruct (deployed_job_frame env fuel r w id j Hid) as (j' & Hj' & _ & Hother).
      rewrite Hj', Hother; [done|]. intros ->. congruence.
    + rewrite Hjobs. by apply replay_missing.
  - intros Hvalid Hoff Herr Hpage Hshort.
    destruct (serve_nonempty env (network_fetch env (deployed env fuel)) r off w
                Hvalid Hoff Herr Hpage)
      as (s & e & w1 & items & _ & _ & _ & _ & Ht & Hitems & Hins & _ & ->).
    assert ((length (page_of (sourceUserId r) off (limit r) (products w)) =? limit r)
            = false) as -> by (apply Nat.eqb_neq; lia).
    exists s, e. eexists. split; [reflexivity|].
    simpl. rewrite Ht. unfold batch_start. simpl.
    rewrite <- !app_assoc, drop_app_length. simpl.
    unfold inserts in *. rewrite omap_app, Hins. simpl. by rewrite app_nil_r.
Qed.

Lemma missing_job_row_is_ignored_witness :
  clone_jobs (deployed calm_env 3
                (mkRequest "no-such-job" "src" "dst" (Some 0) 5) (demo_world 3)).2
  = clone_jobs (demo_world 3).
Proof.
  apply (missing_job_row_is_ignored calm_env 3
           (mkRequest "no-such-job" "src" "dst" (Some 0) 5) 0 (demo_world 3)).
  reflexivity.
Defined.

Lemma eq_filter_own_user (target : string) (row : Row) :
  row !! "user_id" = Some (VStr target) →
  eq_filter "user_id" (VStr target) [row] = [row].
Proof.
  intros Hrow. unfold eq_filter. rewrite filter_cons, decide_True by done.
  by rewrite filter_nil.
Qed.

Lemma process_item_rows (env : Env) (target : string) (product : Row) (w : World) :
  source_count target (process_item env target product w).2
  = source_count target w
    + (match insert_outcome env (io_count w) with InsertOk => 1 | _ => 0 end) ∧
  ((process_item env target product w).1 = Val ItemCloned →
   insert_outcome env (io_count w) = InsertOk) ∧
  ((∀ t, item_throws env t = false) →
   insert_outcome env (io_count w) = InsertOk →
   (process_item env target product w).1 = Val ItemCloned).
Proof.
  unfold process_item. run_io.
  destruct (insert_outcome env (io_count w)) as [|msg|msg] eqn:Hins; simpl.
  2,3: repeat split; try done; unfold source_count; simpl; lia.
  assert (Hrow : ∀ rows,
    length (eq_filter "user_id" (VStr target)
              (rows ++ [<["id" := VStr (fresh_id env (io_count w))]>
                         (<["created_at" := VNum (Z.of_nat (now env (io_count w)))]>
                            (<["updated_at" := VNum (Z.of_nat (now env (io_count w)))]>
                               (product_payload target product)))]))
    = length (eq_filter "user_id" (VStr target) rows) + 1).
  { intros rows. rewrite eq_filter_app, eq_filter_own_user, length_app; [done|].
    by rewrite !lookup_insert_ne, payload_user_id. }
  destruct (item_throws env (S (io_count w))) eqn:Hthrow1; simpl.
  { repeat split; try done.
    - unfold source_count. simpl. apply Hrow.
    - intros Hcalm. by rewrite Hcalm in Hthrow1. }
  match goal with
  | |- context [copy_images _ _ _ ?w0] =>
      destruct (copy_images_spec env (fresh_id env (io_count w))
                  (eq_filter "product_id" (default VNull (product !! "id"))
                     (product_images w)) w0)
        as (urls & w1 & evs & Hrun & Hp & _)
  end.
  simpl in Hrun. rewrite Hrun. simpl.
  destruct (find_featured (imageLimiter urls)) as [url|]; simpl.
  2: { repeat split; try done. unfold source_count. rewrite Hp. simpl. apply Hrow. }
  destruct (item_throws env (io_count w1)) eqn:Hthrow2; simpl.
  - repeat split; try done.
    + unfold source_count. simpl. rewrite Hp. simpl. apply Hrow.
    + intros Hcalm. by rewrite Hcalm in Hthrow2.
  - repeat split; try done.
    unfold source_count. simpl. rewrite eq_filter_set_featured_length, Hp. simpl.
    apply Hrow.
Qed.

Lemma processBatch_loop_cons (env : Env) (target : string) (product : Row)
    (rest : list Row) (s0 e0 : nat) (w : World) :
  processBatch_loop env target (product :: rest) s0 e0 w
  = match process_item env target product w with
    | (Val ItemCloned, w1) => processBatch_loop env target rest (S s0) e0 w1
    | (Val ItemInsertError, w1) | (Exn _, w1) =>
        processBatch_loop env target rest s0 (S e0) w1
    | (OutOfFuel, w1) => (OutOfFuel, w1)
    end.
Proof.
  simpl. unfold mbind, M_bind, try_catch.
  by destruct (process_item env target product w) as [[[]|?|] ?].
Qed.

Lemma processBatch_loop_rows (env : Env) (target : string) (page : list Row) :
  ∀ s0 e0 w, ∃ k,
    source_count target (processBatch_loop env target page s0 e0 w).2
    = source_count target w + k ∧
    k ≤ length page ∧
    (∀ s e, (processBatch_loop env target page s0 e0 w).1 = Val (s, e) →
       s ≤ s0 + k ∧ ((∀ t, item_throws env t = false) → s = s0 + k)).
Proof.
  induction page as [|product rest IH]; intros s0 e0 w.
  - exists 0. simpl. split; [lia|]. split; [lia|].
    intros s e [= <- <-]. split; [lia|]. intros _. lia.
  - destruct (process_item_rows env target product w) as (Hcount & Hok & Hcalm).
    rewrite processBatch_loop_cons.
    destruct (process_item env target product w) as [res w1] eqn:Hrun.
    simpl in Hcount, Hok, Hcalm.
    assert (Hnext : ∀ s1 e1 k1,
      source_count target w1 = source_count target w + k1 → k1 ≤ 1 →
      s1 ≤ s0 + k1 →
      ((∀ t, item_throws env t = false) → s1 = s0 + k1) →
      ∃ k,
        source_count target (processBatch_loop env target rest s1 e1 w1).2
        = source_count target w + k ∧
        k ≤ length (product :: rest) ∧
        (∀ s e, (processBatch_loop env target rest s1 e1 w1).1 = Val (s, e) →
           s ≤ s0 + k ∧ ((∀ t, item_throws env t = false) → s = s0 + k))).
    { intros s1 e1 k1 Hc1 Hk1 Hs1 Hs1'.
      destruct (IH s1 e1 w1) as (k & Hc & Hk & Hres).
      exists (k1 + k). split; [lia|]. split; [simpl; lia|].
      intros s e Hrun'. destruct (Hres s e Hrun') as [Hle Heq].
      split; [lia|]. intros Hno. rewrite (Heq Hno), (Hs1' Hno). lia. }
    destruct res as [[|]|msg|].
    + rewrite (Hok eq_refl) in Hcount.
      apply (Hnext (S s0) e0 1); [done | lia | lia | intros _; lia].
    + destruct (insert_outcome env (io_count w)) eqn:Hins.
      * apply (Hnext s0 (S e0) 1); [done | lia | lia |].
        intros Hno. by specialize (Hcalm Hno eq_refl).
      * apply (Hnext s0 (S e0) 0); [done | lia | lia | intros _; lia].
      * apply (Hnext s0 (S e0) 0); [done | lia | lia | intros _; lia].
    + destruct (insert_outcome env (io_count w)) eqn:Hins.
      * apply (Hnext s0 (S e0) 1); [done | lia | lia |].
        intros Hno. by specialize (Hcalm Hno eq_refl).
      * apply (Hnext s0 (S e0) 0); [done | lia | lia | intros _; lia].
      * apply (Hnext s0 (S e0) 0); [done | lia | lia | intros _; lia].
    + exists 0. simpl. split; [|split; [lia|by intros s e]].
      destruct (insert_outcome env (io_count w)); [|lia..].
      exfalso. destruct (process_item_spec env target product w)
        as (res' & w1' & _ & Hrun' & Hfuel & _). congruence.
Qed.

(** X9. [processBatch] adds to the target account between successCount
    and page-length rows: every success is an inserted product, and an
    item whose insert succeeded but whose later step threw has left its
    row behind although it is counted as an error. When nothing throws
    after an insert, exactly successCount rows are added. *)
Theorem processBatch_inserted_rows (env : Env) (page : list Row)
    (src tgt job : string) (w : World) :
  ∃ s e w' k,
    processBatch env page src tgt job w = (Val (s, e), w') ∧
    source_count tgt w' = source_count tgt w + k ∧
    s ≤ k ∧ k ≤ length page ∧
    ((∀ t, item_throws env t = false) → k = s).
Proof.
  destruct (processBatch_loop_spec env tgt page 0 0 w)
    as (s & e & w' & evs & Hrun & _).
  destruct (processBatch_loop_rows env tgt page 0 0 w) as (k & Hcount & Hk & Hres).
  unfold processBatch. rewrite Hrun in *. simpl in *.
  destruct (Hres s e eq_refl) as [Hle Heq].
  exists s, e, w', k. repeat split; try done. intros Hno. by rewrite (Heq Hno).
Qed.

Example inserted_but_counted_as_error :
  let run := processBatch throwing_env (products (demo_world 2)) "src" "dst" "job"
               (demo_world 2) in
  run.1 = Val (0, 2) ∧ source_count "dst" run.2 = 2.
Proof. by vm_compute. Qed.

(** ** What a chain does to the product, image and storage tables *)

(** A relation between the worlds before and after that holds across
    steps which leave the three tables alone, composes, and holds across
    the processing of one item, holds across a whole chain. *)
Section TableInvariant.

Variable env : Env.
Variable tgt : string.
Variable R : World → World → Prop.

Hypothesis R_same : ∀ w w',
  products w' = products w → product_images w' = product_images w →
  storage w' = storage w → R w w'.
Hypothesis R_trans : ∀ w1 w2 w3, R w1 w2 → R w2 w3 → R w1 w3.
Hypothesis R_item : ∀ product w, R w (process_item env tgt product w).2.

Lemma processBatch_loop_tables (page : list Row) :
  ∀ s0 e0 w, R w (processBatch_loop env tgt page s0 e0 w).2.
Proof using R_same R_trans R_item.
  induction page as [|product rest IH]; intros s0 e0 w; [by apply R_same|].
  rewrite processBatch_loop_cons.
  pose proof (R_item product w) as Hitem.
  destruct (process_item env tgt product w) as [[[|]|msg|] w1]; simpl in Hitem;
    [| | |done]; (eapply R_trans; [exact Hitem | apply IH]).
Qed.

Lemma serve_tables (fetch : Request → M unit) (m : Method) (r : Request) (w : World) :
  targetUserId r = tgt →
  (∀ r' w0, targetUserId r' = tgt → R w0 (fetch r' w0).2) →
  R w (serve env fetch m r w).2.
Proof using R_same R_trans R_item.
  intros Htgt Hfetch.
  destruct m; [by apply R_same | | by apply R_same].
  destruct (valid_request_dec r) as [[Hvalid [off Hoff]]|Hinv].
  2: { rewrite serve_invalid by done. by apply R_same. }
  destruct (page_fetch_error env (io_count w)) as [msg|] eqn:Herr.
  { rewrite (serve_fetch_error env fetch r off w msg) by done. by apply R_same. }
  destruct (decide (page_of (sourceUserId r) off (limit r) (products w) = []))
    as [Hpage|Hpage].
  { rewrite (serve_empty env fetch r off w) by done. by apply R_same. }
  destruct (serve_nonempty env fetch r off w Hvalid Hoff Herr Hpage)
    as (s & e & w1 & items & Hrun & _ & _ & _ & _ & _ & _ & _ & ->).
  assert (Hpre : R w (batch_counted r s w1)).
  { apply (R_trans _ (batch_start r off w)); [by apply R_same|].
    apply (R_trans _ w1); [|by apply R_same].
    pose proof (processBatch_loop_tables
                  (page_of (sourceUserId r) off (limit r) (products w)) 0 0
                  (batch_start r off w)) as Hloop.
    unfold processBatch in Hrun. rewrite Htgt in Hrun. by rewrite Hrun in Hloop. }
  destruct (_ =? _).
  - apply (R_trans _ _ _ Hpre).
    pose proof (Hfetch (next_request r off) (batch_counted r s w1) Htgt) as Hf.
    by destruct (fetch _ _) as [[| |] ?].
  - apply (R_trans _ _ _ Hpre). by apply R_same.
Qed.

Lemma deployed_tables (fuel : nat) :
  ∀ r w, targetUserId r = tgt → R w (deployed env fuel r w).2.
Proof using R_same R_trans R_item.
  induction fuel as [|fuel IH]; intros r w Htgt; [by apply R_same|].
  rewrite deployed_S_run.
  assert (Hs : R w (serve env (network_fetch env (deployed env fuel)) POST r
                      (log_event (EvInvoked r) w)).2).
  { apply (R_trans _ (log_event (EvInvoked r) w)); [by apply R_same|].
    apply serve_tables; [done|]. intros r' w0 Htgt'. unfold network_fetch. run_io.
    destruct (dispatch_rejects env (io_count w0)); [by apply R_same|].
    apply (R_trans _ (log_event (EvDispatch r') (tick w0))); [by apply R_same|].
    pose proof (IH r' (log_event (EvDispatch r') (tick w0)) Htgt') as Hc.
    by destruct (deployed env fuel r' _) as [[| |] ?]. }
  destruct (serve _ _ _ _ _) as [[resp|msg|] w']; simpl in *; [|done..].
  apply (R_trans _ w'); [done | by apply R_same].
Qed.

End TableInvariant.

Lemma set_featured_other (id url : string) (rows : list Row) :
  (∀ row, row ∈ rows → row !! "id" ≠ Some (VStr id)) →
  set_featured id url rows = rows.
Proof.
  intros Hne. unfold set_featured.
  induction rows as [|row rows IH]; [done|].
  rewrite fmap_cons, decide_False by (apply Hne; apply elem_of_cons; by left).
  f_equal. apply IH. intros row' Hin. apply Hne. apply elem_of_cons. by right.
Qed.

Lemma set_featured_owned (user id url : string) (rows : list Row) :
  Forall (owned_by user) rows → Forall (owned_by user) (set_featured id url rows).
Proof.
  intros H. unfold set_featured. apply Forall_fmap.
  eapply Forall_impl; [exact H|]. intros row Hrow. simpl. unfold owned_by.
  case_decide; [by rewrite lookup_insert_ne | done].
Qed.

Lemma process_item_rows_kept (env : Env) (base : list Row) (tgt : string)
    (product : Row) (w : World) :
  (∀ row t, row ∈ base → row !! "id" ≠ Some (VStr (fresh_id env t))) →
  rows_kept base tgt w (process_item env tgt product w).2.
Proof.
  intros Hbase new Hw Hnew.
  unfold process_item. run_io.
  destruct (insert_outcome env (io_count w)) as [|msg|msg]; simpl.
  2,3: by exists new.
  set (row := <["id" := VStr (fresh_id env (io_count w))]> _).
  assert (Hrow : owned_by tgt row).
  { unfold owned_by, row. by rewrite !lookup_insert_ne, payload_user_id. }
  assert (Hnew' : Forall (owned_by tgt) (new ++ [row])).
  { apply Forall_app. split; [done|]. by constructor. }
  destruct (item_throws env (S (io_count w))); simpl.
  { exists (new ++ [row]). by rewrite Hw, <- app_assoc. }
  match goal with
  | |- context [copy_images _ _ _ ?w0] =>
      destruct (copy_images_spec env (fresh_id env (io_count w))
                  (eq_filter "product_id" (default VNull (product !! "id"))
                     (product_images w)) w0)
        as (urls & w1 & evs & Hrun & Hp & _)
  end.
  simpl in Hrun. rewrite Hrun. simpl. simpl in Hp.
  destruct (find_featured (imageLimiter urls)) as [url|]; simpl.
  2: { exists (new ++ [row]). by rewrite Hp, Hw, <- app_assoc. }
  destruct (item_throws env (io_count w1)); simpl.
  { exists (new ++ [row]). by rewrite Hp, Hw, <- app_assoc. }
  exists (set_featured (fresh_id env (io_count w)) url (new ++ [row])).
  split; [|by apply set_featured_owned].
  rewrite Hp, Hw, <- app_assoc. unfold set_featured at 1. rewrite fmap_app.
  f_equal. apply set_featured_other. intros r0 Hr0. by apply Hbase.
Qed.

(** X10. Provided the identifiers the table hands out are not those of
    rows already there, a chain of invocations leaves every existing
    product row as it was and where it was: the table afterwards is the
    table before followed by rows of the target account. *)
Theorem chain_keeps_existing_products (env : Env) (fuel : nat) (r : Request)
    (w : World) :
  (∀ row t, row ∈ products w → row !! "id" ≠ Some (VStr (fresh_id env t))) →
  ∃ new,
    products (deployed env fuel r w).2 = products w ++ new ∧
    Forall (owned_by (targetUserId r)) new.
Proof.
  intros Hfresh.
  apply (deployed_tables env (targetUserId r) (rows_kept (products w) (targetUserId r)))
    with (fuel := fuel) (r := r) (w := w) (new := []).
  - intros w1 w2 Hp _ _ new Hw Hnew. exists new. by rewrite Hp.
  - intros w1 w2 w3 H12 H23 new Hw Hnew.
    destruct (H12 new Hw Hnew) as (new2 & Hw2 & Hnew2). by apply (H23 new2).
  - intros product w0. by apply process_item_rows_kept.
  - done.
  - by rewrite app_nil_r.
  - constructor.
Qed.

Lemma chain_keeps_existing_products_witness :
  ∃ new,
    products (deployed calm_env 3 (demo_request 2) (demo_world 3)).2
    = products (demo_world 3) ++ new ∧
    Forall (owned_by "dst") new.
Proof.
  apply (chain_keeps_existing_products calm_env 3 (demo_request 2) (demo_world 3)).
  intros row t Hrow Hid.
  assert (Hp : str_field "id" row ∈ ["p0"; "p1"; "p2"]).
  { revert Hrow. simpl. rewrite !elem_of_cons, elem_of_nil.
    intros [->|[->|[->|[]]]]; vm_compute; set_solver. }
  unfold str_field in Hp. rewrite Hid in Hp. simpl in Hp.
  rewrite !elem_of_cons, elem_of_nil in Hp.
  destruct Hp as [Hp|[Hp|[Hp|[]]]]; by inversion Hp.
Defined.






(** ** What the handler never does *)

Lemma serve_results (env : Env) (fetch : Request → M unit) (m : Method) (r : Request)
    (w : World) :
  (∃ resp w', serve env fetch m r w = (Val resp, w') ∧
     (http_status resp ≠ 200 →
      products w' = products w ∧ product_images w' = product_images w ∧
      storage w' = storage w ∧ clone_jobs w' = clone_jobs w ∧
      lifecycle (trace w') = lifecycle (trace w)))
  ∨ (∃ r' w0 w', fetch r' w0 = (OutOfFuel, w') ∧ serve env fetch m r w = (OutOfFuel, w')).
Proof.
  destruct m.
  1,3: left; eexists _, _; split; [reflexivity|done].
  destruct (valid_request_dec r) as [[Hvalid [off Hoff]]|Hinv].
  2: { left. rewrite serve_invalid by done. eexists _, _. split; [reflexivity|done]. }
  destruct (page_fetch_error env (io_count w)) as [msg|] eqn:Herr.
  { left. rewrite (serve_fetch_error env fetch r off w msg) by done.
    eexists _, _. split; [reflexivity|done]. }
  destruct (decide (page_of (sourceUserId r) off (limit r) (products w) = []))
    as [Hpage|Hpage].
  { left. rewrite (serve_empty env fetch r off w) by done.
    eexists _, _. split; [reflexivity|done]. }
  destruct (serve_nonempty env fetch r off w Hvalid Hoff Herr Hpage)
    as (s & e & w1 & items & _ & _ & _ & _ & _ & _ & _ & _ & ->).
  destruct (_ =? _).
  - destruct (fetch _ _) as [[| |] w'] eqn:Hfetch.
    + left. eexists _, _. split; [reflexivity|done].
    + left. eexists _, _. split; [reflexivity|done].
    + right. by eexists _, _, _.
  - left. eexists _, _. split; [reflexivity|done].
Qed.

(** X12. The handler catches whatever is thrown: an invocation never ends
    with an exception, whatever the awaited dispatch does. And it writes
    only when it answers 200: with any other status (400, 405, 500) the
    products, the images, the storage bucket and the job table are as
    before and nothing was dispatched. *)
Theorem handler_never_throws (env : Env) (fetch : Request → M unit) (m : Method)
    (r : Request) (w : World) :
  (∀ msg, (serve env fetch m r w).1 ≠ Exn msg) ∧
  (∀ resp, (serve env fetch m r w).1 = Val resp → http_status resp ≠ 200 →
     products (serve env fetch m r w).2 = products w ∧
     product_images (serve env fetch m r w).2 = product_images w ∧
     storage (serve env fetch m r w).2 = storage w ∧
     clone_jobs (serve env fetch m r w).2 = clone_jobs w ∧
     lifecycle (trace (serve env fetch m r w).2) = lifecycle (trace w)).
Proof.
  destruct (serve_results env fetch m r w)
    as [(resp & w' & -> & Hquiet)|(r' & w0 & w' & _ & ->)]; split; try done.
  intros resp' [= <-] Hstatus. by apply Hquiet.
Qed.

(** ** The featured image of a clone *)








Example second_image_becomes_featured :
  (λ row : Row, row !! "featured_image_url")
    <$> products (process_item calm_env "dst" (demo_product 0 "src") gallery_world).2
  = [Some (VStr "old/url"); Some (VStr "public/products/img-3")].
Proof. vm_compute. reflexivity. Qed.

(** ** The windows of the limiter *)

Lemma ceil_div_step (len n : nat) :
  n ≠ 0 → len ≠ 0 → ceil_div len n = S (ceil_div (len - n) n).
Proof.
  intros Hn Hlen. unfold ceil_div.
  destruct (decide (len ≤ n)) as [Hle|Hgt].
  - replace (len - n + n - 1) with (n - 1) by lia.
    rewrite (Nat.div_small (n - 1) n) by lia.
    symmetry. apply (Nat.div_unique _ _ _ (len - 1)); lia.
  - replace (len + n - 1) with (len - n + n - 1 + 1 * n) by lia.
    rewrite Nat.div_add by done. lia.
Qed.

Lemma chunks_go_windows {A} (n : nat) :
  n ≠ 0 →
  ∀ fuel (l : list A), length l ≤ fuel →
    Forall (λ batch, 1 ≤ length batch ≤ n) (chunks_go fuel n l) ∧
    length (chunks_go fuel n l) = ceil_div (length l) n ∧
    (∀ i, S i < length (chunks_go fuel n l) →
          length <$> chunks_go fuel n l !! i = Some n).
Proof.
  intros Hn. induction fuel as [|fuel IH]; intros [|x l] Hlen; simpl in Hlen; try lia.
  1,2: simpl; split; [constructor|]; (split; [|intros i Hi; simpl in Hi; lia]);
       unfold ceil_div; simpl; symmetry; apply Nat.div_small; lia.
  cbn [chunks_go].
  destruct (IH (drop n (x :: l))) as (Hall & Hcount & Hfull).
  { rewrite length_drop. simpl. lia. }
  split; [|split].
  - constructor; [|done]. rewrite length_take. simpl. lia.
  - cbn [length]. rewrite Hcount, length_drop.
    symmetry. by apply ceil_div_step.
  - intros [|i] Hi; cbn [length] in Hi.
    + simpl. f_equal. rewrite length_take.
      rewrite Hcount, length_drop in Hi.
      destruct (decide (length (x :: l) ≤ n)) as [Hle|Hgt]; [|lia].
      exfalso. replace (length (x :: l) - n) with 0 in Hi by lia.
      unfold ceil_div in Hi. rewrite (Nat.div_small (0 + n - 1) n) in Hi by lia. lia.
    + simpl. apply Hfull. lia.
Qed.

(** X14. The loop of [imageLimiter] awaits the promises of an item in
    ceil(n / 5) windows, none of them empty, none larger than
    [CONCURRENT_IMAGE_LIMIT], all but the last one full, and hands the
    results back in the order of the images. *)
Theorem imageLimiter_windows {A} (imagePromises : list A) :
  let windows := chunks CONCURRENT_IMAGE_LIMIT imagePromises in
  imageLimiter imagePromises = imagePromises ∧
  Forall (λ batch, 1 ≤ length batch ≤ CONCURRENT_IMAGE_LIMIT) windows ∧
  length windows = ceil_div (length imagePromises) CONCURRENT_IMAGE_LIMIT ∧
  (∀ i, S i < length windows →
        length <$> windows !! i = Some CONCURRENT_IMAGE_LIMIT).
Proof.
  split; [apply imageLimiter_id|].
  by apply (chunks_go_windows CONCURRENT_IMAGE_LIMIT).
Qed.

(** ** Slugs of a bulk copy *)

Lemma generateUniqueSlug_fresh (baseSlug : string) (existingSet : gset string) :
  ∃ k, generateUniqueSlug baseSlug existingSet
       = Some (attempt baseSlug k, {[attempt baseSlug k]} ∪ existingSet) ∧
       (attempt baseSlug k ∉ existingSet).
Proof.
  destruct (slug_loop_first_free baseSlug existingSet (size existingSet) 0)
    as (k & _ & Hloop & Hfree & _); [intros j Hj; lia | lia |].
  exists k. unfold generateUniqueSlug.
  change (attempt baseSlug 0) with baseSlug in Hloop. by rewrite Hloop.
Qed.

(** The rows prepared for a bulk insert, with the set of slugs at the end
    of the [map]. *)
Lemma productsToInsert_rows (targetUserId : string) (clock : Z) (products : list Row) :
  ∀ existingSlugSet : gset string, ∃ rows,
    productsToInsert products existingSlugSet targetUserId clock = Some rows ∧
    length rows = length products ∧
    NoDup (str_field "slug" <$> rows) ∧
    Forall (λ row : Row, str_field "slug" row ∉ existingSlugSet) rows ∧
    Forall (λ row : Row, row !! "user_id" = Some (VStr targetUserId)
                         ∧ row !! "id" = None) rows ∧
    Forall2 (λ (product row : Row),
               ∃ k, row !! "slug" = Some (VStr (attempt (str_field "slug" product) k)))
            products rows.
Proof.
  induction products as [|product rest IH]; intros existingSlugSet.
  - exists []. simpl. repeat split; constructor.
  - destruct (generateUniqueSlug_fresh (str_field "slug" product) existingSlugSet)
      as (k & Hgen & Hfree).
    set (uniqueSlug := attempt (str_field "slug" product) k) in *.
    destruct (IH ({[uniqueSlug]} ∪ existingSlugSet))
      as (rows & Hrows & Hlen & Hnd & Hout & Hown & Hslug).
    eexists (_ :: rows). cbn [productsToInsert]. rewrite Hgen, Hrows.
    split; [reflexivity|].
    assert (Hhead : ∀ row : Row,
              str_field "slug"
                (<["updated_at" := VNum clock]>
                   (<["created_at" := VNum clock]>
                      (<["user_id" := VStr targetUserId]>
                         (<["slug" := VStr uniqueSlug]> row)))) = uniqueSlug).
    { intros row. unfold str_field.
      by rewrite !lookup_insert_ne, lookup_insert_eq by done. }
    split; [simpl; by rewrite Hlen|]. split; [|split; [|split]].
    + rewrite fmap_cons, Hhead. constructor; [|done].
      intros Hin. apply list_elem_of_fmap in Hin as (row & Heq & Hin).
      rewrite Forall_forall in Hout. apply (Hout row Hin).
      rewrite <- Heq. apply elem_of_union_l, elem_of_singleton. reflexivity.
    + constructor; [by rewrite Hhead|].
      eapply Forall_impl; [exact Hout|]. intros row Hrow Hin. apply Hrow.
      by apply elem_of_union_r.
    + constructor; [|done]. split.
      * by rewrite !lookup_insert_ne, lookup_insert_eq by done.
      * unfold productData. by rewrite !lookup_insert_ne, lookup_delete_eq by done.
    + constructor; [|done]. exists k.
      by rewrite !lookup_insert_ne, lookup_insert_eq by done.
Qed.


(** ** The bulk copy handler *)

Lemma add_categories_rows_nil (st : Store) : add_categories_rows [] st = st.
Proof. destruct st. unfold add_categories_rows. simpl. by rewrite app_nil_r. Qed.

Lemma add_products_rows_nil (st : Store) : add_products_rows [] st = st.
Proof. destruct st. unfold add_products_rows. simpl. by rewrite app_nil_r. Qed.

Lemma add_images_rows_nil (st : Store) : add_images_rows [] st = st.
Proof. destruct st. unfold add_images_rows. simpl. by rewrite app_nil_r. Qed.

Lemma add_tiers_rows_nil (st : Store) : add_tiers_rows [] st = st.
Proof. destruct st. unfold add_tiers_rows. simpl. by rewrite app_nil_r. Qed.

Lemma length_eqb_nil {A} (l : list A) : (length l =? 0) = true → l = [].
Proof. intros H. apply Nat.eqb_eq in H. by apply length_zero_iff_nil. Qed.

(** "Copy categories first" either goes on, having appended the rows it
    counts, or is rejected, having written nothing. *)
Lemma copy_categories_cases (trim : string → string) (cenv : CopyEnv)
    (products : list Row) (tgt : string) (st : Store) :
  ∃ delta,
    (copy_categories trim cenv products tgt st
       = (Continue (length delta), add_categories_rows delta st)
     ∨ copy_categories trim cenv products tgt st
       = (Return (mkCopyResponse 500 None), st)) ∧
    (delta = [] ∨
     ∃ existing,
       delta = categoriesToCreate cenv tgt (uniqueCategories trim products) existing ∧
       (on_fetch_categories cenv = Succeeds →
        existing = Some (eq_filter "user_id" (VStr tgt) (user_product_categories st)))).
Proof.
  unfold copy_categories.
  destruct (length (uniqueCategories trim products) =? 0).
  { exists []. split; [left; by rewrite add_categories_rows_nil | by left]. }
  unfold mbind, Handler_bind, select, insert_into.
  destruct (on_fetch_categories cenv) eqn:Hfetch.
  3: { exists []. split; [by right | by left]. }
  all: match goal with
       | |- context [categoriesToCreate ?e ?u ?names ?existing] =>
           set (rows := categoriesToCreate e u names existing)
       end.
  all: destruct (length rows =? 0);
         [exists []; split; [left; by rewrite add_categories_rows_nil | by left]|].
  all: destruct (on_insert_categories cenv);
         [ exists rows; split; [by left | right; eexists; split; [reflexivity|done]]
         | exists []; split; [left; by rewrite add_categories_rows_nil | by left]
         | exists []; split; [by right | by left] ].
Qed.

(** The insert of the copies either goes on with the rows it has
    appended, one per product, or answers 400 or 500, having written
    nothing. *)
Lemma copy_products_cases (cenv : CopyEnv) (products : list Row) (tgt : string)
    (st : Store) :
  ∃ existingSlugs rows,
    productsToInsert products (existingSlugSet_of existingSlugs) tgt (copy_clock cenv)
      = Some rows ∧
    (on_fetch_slugs cenv = Succeeds →
     existingSlugs = Some (eq_filter "user_id" (VStr tgt) (store_products st))) ∧
    ((copy_products cenv products tgt st
        = (Continue (inserted_rows cenv rows),
           add_products_rows (inserted_rows cenv rows) st)
      ∧ on_insert_products cenv = RowsInserted
      ∧ (∀ msg, on_fetch_slugs cenv ≠ Rejects msg))
     ∨ (copy_products cenv products tgt st = (Return (mkCopyResponse 400 None), st)
        ∧ (products = [] ∨ on_insert_products cenv = NothingInserted))
     ∨ (copy_products cenv products tgt st = (Return (mkCopyResponse 500 None), st)
        ∧ ((∃ msg, on_fetch_slugs cenv = Rejects msg)
           ∨ (∃ msg, on_insert_products cenv = BulkFails msg)
           ∨ (∃ msg, on_insert_products cenv = BulkRejects msg)))).
Proof.
  unfold copy_products, mbind, Handler_bind, select.
  destruct (on_fetch_slugs cenv) as [|msg|msg] eqn:Hslugs.
  3: { destruct (productsToInsert_rows tgt (copy_clock cenv) products
                   (existingSlugSet_of None)) as (rows & Hrows & _).
       exists None, rows. split; [done|]. split; [done|].
       right. right. split; [done|]. left. by exists msg. }
  all: match goal with
       | |- context [productsToInsert ?ps (existingSlugSet_of ?e) ?u ?c] =>
           destruct (productsToInsert_rows u c ps
                       (existingSlugSet_of e)) as (rows & Hrows & Hlen & _);
           exists e, rows; rewrite Hrows
       end.
  all: split; [done|]; split; [done|].
  all: destruct (on_insert_products cenv) as [| |msg'|msg'] eqn:Hins.
  all: try (right; left; split; [done|by right]).
  all: try (right; right; split; [done|]; right; by eauto).
  all: destruct (length (inserted_rows cenv rows) =? 0) eqn:Hzero;
         [ right; left; split; [done|]; left;
           apply length_eqb_nil in Hzero; unfold inserted_rows in Hzero;
           apply (f_equal length) in Hzero; rewrite length_imap, Hlen in Hzero;
           by apply length_zero_iff_nil
         | left; by repeat split ].
Qed.

Lemma copy_product_images_cases (cenv : CopyEnv) (ids : list string)
    (mapping : list (option val * option val)) (st : Store) :
  ∃ delta,
    ((copy_product_images cenv ids mapping st
        = (Continue (length delta), add_images_rows delta st)
      ∧ ∀ msg, on_fetch_images cenv ≠ Rejects msg)
     ∨ (copy_product_images cenv ids mapping st
          = (Return (mkCopyResponse 500 None), st)
        ∧ ((∃ msg, on_fetch_images cenv = Rejects msg)
           ∨ (∃ msg, on_insert_images cenv = Rejects msg)))) ∧
    (delta = [] ∨
     delta = imagesToInsert (copy_clock cenv) mapping
               (in_filter "product_id" ids (store_product_images st))).
Proof.
  unfold copy_product_images, mbind, Handler_bind, select, insert_into.
  destruct (on_fetch_images cenv) as [|msg|msg] eqn:Hfetch.
  2: { exists []. split; [left; by rewrite add_images_rows_nil | by left]. }
  2: { exists []. split; [right; split; [done|left; by eauto] | by left]. }
  set (rows := imagesToInsert _ _ _).
  destruct (length rows =? 0);
    [exists []; split; [left; by rewrite add_images_rows_nil | by left]|].
  destruct (on_insert_images cenv) as [|msg|msg] eqn:Hins;
    [ exists rows; split; [by left | by right]
    | exists []; split; [left; by rewrite add_images_rows_nil | by left]
    | exists []; split; [right; split; [done|right; by eauto] | by left] ].
Qed.

Lemma copy_price_tiers_cases (cenv : CopyEnv) (ids : list string)
    (mapping : list (option val * option val)) (st : Store) :
  ∃ delta,
    ((copy_price_tiers cenv ids mapping st
        = (Continue (length delta), add_tiers_rows delta st)
      ∧ ∀ msg, on_fetch_tiers cenv ≠ Rejects msg)
     ∨ (copy_price_tiers cenv ids mapping st
          = (Return (mkCopyResponse 500 None), st)
        ∧ ((∃ msg, on_fetch_tiers cenv = Rejects msg)
           ∨ (∃ msg, on_insert_tiers cenv = Rejects msg)))) ∧
    (delta = [] ∨
     delta = tiersToInsert (copy_clock cenv) mapping
               (in_filter "product_id" ids (product_price_tiers st))).
Proof.
  unfold copy_price_tiers, mbind, Handler_bind, select, insert_into.
  destruct (on_fetch_tiers cenv) as [|msg|msg] eqn:Hfetch.
  2: { exists []. split; [left; by rewrite add_tiers_rows_nil | by left]. }
  2: { exists []. split; [right; split; [done|left; by eauto] | by left]. }
  set (rows := tiersToInsert _ _ _).
  destruct (length rows =? 0);
    [exists []; split; [left; by rewrite add_tiers_rows_nil | by left]|].
  destruct (on_insert_tiers cenv) as [|msg|msg] eqn:Hins;
    [ exists rows; split; [by left | by right]
    | exists []; split; [left; by rewrite add_tiers_rows_nil | by left]
    | exists []; split; [right; split; [done|right; by eauto] | by left] ].
Qed.

Lemma select_bind {B} (o : Outcome) (query : Store → list Row)
    (k : option (list Row) → Handler B) (st : Store) :
  (select o query ≫= k) st
  = match o with
    | Succeeds => k (Some (query st)) st
    | Fails _ => k None st
    | Rejects _ => (Return (mkCopyResponse 500 None), st)
    end.
Proof. unfold mbind, Handler_bind, select. by destruct o. Qed.

(** The invocation does not reach the copy: it answers before it writes. *)
Lemma copy_handler_early (trim : string → string) (cenv : CopyEnv) (method : Method)
    (body : option CopyProductsRequest) (st : Store) :
  (method = OPTIONS ∧
   copy_handler trim cenv method body st = (Some (mkCopyResponse 200 None), st))
  ∨ (method ≠ OPTIONS ∧ configured cenv = false ∧
     copy_handler trim cenv method body st = (Some (mkCopyResponse 500 None), st))
  ∨ (method ≠ OPTIONS ∧ configured cenv = true ∧ ¬ valid_copy_request body ∧
     copy_handler trim cenv method body st = (Some (mkCopyResponse 400 None), st))
  ∨ (∃ requestData ids,
       method ≠ OPTIONS ∧ configured cenv = true ∧
       body = Some requestData ∧ productIds requestData = Some ids ∧
       copy_sourceUserId requestData ≠ "" ∧ copy_targetUserId requestData ≠ "" ∧
       ids ≠ [] ∧
       ((on_fetch_products cenv ≠ Succeeds ∧
         copy_handler trim cenv method body st = (Some (mkCopyResponse 500 None), st))
        ∨ (on_fetch_products cenv = Succeeds ∧ products_to_copy requestData st = [] ∧
           copy_handler trim cenv method body st = (Some (mkCopyResponse 404 None), st))
        ∨ (on_fetch_products cenv = Succeeds ∧ products_to_copy requestData st ≠ [] ∧
           copy_products_between_users trim cenv method body st
           = (copiedCategories ←
                copy_categories trim cenv (products_to_copy requestData st)
                  (copy_targetUserId requestData);
              insertedProducts ←
                copy_products cenv (products_to_copy requestData st)
                  (copy_targetUserId requestData);
              let mapping :=
                productIdMapping (products_to_copy requestData st) insertedProducts in
              copiedImages ← copy_product_images cenv ids mapping;
              copiedPriceTiers ← copy_price_tiers cenv ids mapping;
              mret (mkCopyResponse 200
                      (Some {| copiedProducts := length insertedProducts;
                               copiedImages := copiedImages;
                               copiedPriceTiers := copiedPriceTiers;
                               copiedCategories := copiedCategories |}))) st))).
Proof.
  assert (Hm : method = OPTIONS ∨ method ≠ OPTIONS) by (destruct method; by auto).
  destruct Hm as [->|Hm]; [by left|].
  right.
  assert (Hrun : copy_handler trim cenv method body st
                 = copy_handler trim cenv POST body st
                 ∧ copy_products_between_users trim cenv method body st
                   = copy_products_between_users trim cenv POST body st).
  { by destruct method. }
  destruct Hrun as [-> ->].
  unfold copy_handler, copy_products_between_users.
  destruct (configured cenv) eqn:Hc; simpl; [right|by left].
  destruct body as [requestData|]; simpl.
  2: { left. repeat split; try done. by intros (? & ? & ? & _). }
  destruct (productIds requestData) as [ids|] eqn:Hids; simpl.
  2: { left. repeat split; try done. intros (? & ? & [= <-] & ? & _). congruence. }
  destruct (String.eqb (copy_sourceUserId requestData) "") eqn:Hs; simpl.
  { left. repeat split; try done. intros (? & ? & [= <-] & _ & Hne & _).
    by apply String.eqb_eq in Hs. }
  destruct (String.eqb (copy_targetUserId requestData) "") eqn:Ht; simpl.
  { left. repeat split; try done. intros (? & ? & [= <-] & _ & _ & Hne & _).
    by apply String.eqb_eq in Ht. }
  apply String.eqb_neq in Hs, Ht.
  destruct (length ids =? 0) eqn:Hlen; simpl.
  { left. repeat split; try done. intros (? & ? & [= <-] & Hids' & _ & _ & Hne).
    apply length_eqb_nil in Hlen. congruence. }
  right. exists requestData, ids.
  assert (ids ≠ []) by (intros ->; done).
  do 7 (split; [done|]).
  unfold products_to_copy. rewrite Hids, !select_bind. simpl.
  destruct (on_fetch_products cenv); [|by left..].
  right.
  destruct (in_filter "id" ids _) eqn:Hp; [by left|by right].
Qed.

(** The invocation reaches the copy: what it has appended when it
    answers, and with which status. *)
Lemma copy_handler_late (trim : string → string) (cenv : CopyEnv) (method : Method)
    (requestData : CopyProductsRequest) (ids : list string) (st : Store) :
  method ≠ OPTIONS → configured cenv = true →
  productIds requestData = Some ids →
  copy_sourceUserId requestData ≠ "" → copy_targetUserId requestData ≠ "" →
  ids ≠ [] →
  on_fetch_products cenv = Succeeds → products_to_copy requestData st ≠ [] →
  let products := products_to_copy requestData st in
  let tgt := copy_targetUserId requestData in
  ∃ c p i t resp existingSlugs rows,
    copy_handler trim cenv method (Some requestData) st
      = (Some resp, store_plus st c p i t) ∧
    productsToInsert products (existingSlugSet_of existingSlugs) tgt (copy_clock cenv)
      = Some rows ∧
    (on_fetch_slugs cenv = Succeeds →
     existingSlugs = Some (eq_filter "user_id" (VStr tgt) (store_products st))) ∧
    (c = [] ∨
     ∃ existing,
       c = categoriesToCreate cenv tgt (uniqueCategories trim products) existing ∧
       (on_fetch_categories cenv = Succeeds →
        existing = Some (eq_filter "user_id" (VStr tgt) (user_product_categories st)))) ∧
    (p = [] ∧ i = [] ∧ t = [] ∨ p = inserted_rows cenv rows) ∧
    (i = [] ∨
     i = imagesToInsert (copy_clock cenv) (productIdMapping products p)
           (in_filter "product_id" ids (store_product_images st))) ∧
    (t = [] ∨
     t = tiersToInsert (copy_clock cenv) (productIdMapping products p)
           (in_filter "product_id" ids (product_price_tiers st))) ∧
    ((∃ msg, on_fetch_images cenv = Rejects msg) → i = [] ∧ t = []) ∧
    ((resp = mkCopyResponse 200
               (Some {| copiedProducts := length p; copiedImages := length i;
                        copiedPriceTiers := length t; copiedCategories := length c |})
      ∧ p = inserted_rows cenv rows
      ∧ on_insert_products cenv = RowsInserted
      ∧ (∀ msg, on_fetch_slugs cenv ≠ Rejects msg)
      ∧ (∀ msg, on_fetch_images cenv ≠ Rejects msg)
      ∧ (∀ msg, on_fetch_tiers cenv ≠ Rejects msg))
     ∨ (resp = mkCopyResponse 400 None ∧ p = []
        ∧ on_insert_products cenv = NothingInserted)
     ∨ (resp = mkCopyResponse 500 None ∧
        ((p = [] ∧
          ((∃ msg, on_fetch_categories cenv = Rejects msg)
           ∨ (∃ msg, on_insert_categories cenv = Rejects msg)
           ∨ (∃ msg, on_fetch_slugs cenv = Rejects msg)
           ∨ (∃ msg, on_insert_products cenv = BulkFails msg)
           ∨ (∃ msg, on_insert_products cenv = BulkRejects msg)))
         ∨ (p = inserted_rows cenv rows ∧ on_insert_products cenv = RowsInserted ∧
            ((∃ msg, on_fetch_images cenv = Rejects msg)
             ∨ (∃ msg, on_insert_images cenv = Rejects msg)
             ∨ (∃ msg, on_fetch_tiers cenv = Rejects msg)
             ∨ (∃ msg, on_insert_tiers cenv = Rejects msg)))))).
Proof.
  intros Hm Hc Hids Hs Ht Hne Hfetch Hp products tgt.
  destruct (copy_handler_early trim cenv method (Some requestData) st)
    as [[-> _]|[(_ & Hc' & _)|[(_ & _ & Hinv & _)|Hlate]]];
    [done | congruence | |].
  { exfalso. apply Hinv. by exists requestData, ids. }
  destruct Hlate as (rd & ids' & _ & _ & [= <-] & Hids' & _ & _ & _ & Hcases).
  assert (ids' = ids) as -> by congruence.
  destruct Hcases as [[Hf _]|[(_ & Hnil & _)|(_ & _ & Hrun)]]; [done..|].
  unfold copy_handler. rewrite Hrun. clear Hrun.
  fold products tgt.
  destruct (copy_categories_cases trim cenv products tgt st) as (c & Hcat & Hc_rows).
  destruct (copy_products_cases cenv products tgt st)
    as (existingSlugs & rows & Hrows & Hslugs & _).
  unfold mbind at 1, Handler_bind at 1.
  destruct Hcat as [Hcat|Hcat]; rewrite Hcat.
  2: { exists [], [], [], [], (mkCopyResponse 500 None), existingSlugs, rows.
       unfold store_plus.
       rewrite add_categories_rows_nil, add_products_rows_nil, add_images_rows_nil,
         add_tiers_rows_nil.
       do 3 (split; [done|]). split; [by left|]. split; [by left|].
       split; [by left|]. split; [by left|]. split; [done|].
       right. right. split; [done|]. left. split; [done|].
       unfold copy_categories, mbind, Handler_bind, select, insert_into in Hcat.
       destruct (length (uniqueCategories trim products) =? 0); [done|].
       destruct (on_fetch_categories cenv) eqn:Hfc; [| |left; by eauto].
       all: destruct (length _ =? 0); [done|].
       all: destruct (on_insert_categories cenv) eqn:Hic; try done.
       all: right; left; by eauto. }
  clear existingSlugs rows Hrows Hslugs.
  destruct (copy_products_cases cenv products tgt (add_categories_rows c st))
    as (existingSlugs & rows & Hrows & Hslugs & Hprod).
  change (store_products (add_categories_rows c st)) with (store_products st) in Hslugs.
  unfold mbind at 1, Handler_bind at 1.
  destruct Hprod as [(Hprod & Hins & Hnorej)|[(Hprod & Hwhy)|(Hprod & Hwhy)]];
    rewrite Hprod.
  2: { exists c, [], [], [], (mkCopyResponse 400 None), existingSlugs, rows.
       unfold store_plus.
       rewrite add_products_rows_nil, add_images_rows_nil, add_tiers_rows_nil.
       do 4 (split; [done|]). split; [by left|].
       split; [by left|]. split; [by left|]. split; [done|].
       right. left. split; [done|]. split; [done|].
       by destruct Hwhy as [Hnil|Hwhy]. }
  2: { exists c, [], [], [], (mkCopyResponse 500 None), existingSlugs, rows.
       unfold store_plus.
       rewrite add_products_rows_nil, add_images_rows_nil, add_tiers_rows_nil.
       do 4 (split; [done|]). split; [by left|].
       split; [by left|]. split; [by left|]. split; [done|].
       right. right. split; [done|]. left. split; [done|].
       destruct Hwhy as [Hwhy|[Hwhy|Hwhy]]; by eauto 6. }
  set (p := inserted_rows cenv rows) in *.
  set (st2 := add_products_rows p (add_categories_rows c st)).
  cbv zeta.
  destruct (copy_product_images_cases cenv ids (productIdMapping products p) st2)
    as (i & Himg & Hi_rows).
  change (store_product_images st2) with (store_product_images st) in Hi_rows.
  unfold mbind at 1, Handler_bind at 1.
  destruct Himg as [[Himg Himg_ok]|[Himg Hwhy]]; rewrite Himg.
  2: { exists c, p, [], [], (mkCopyResponse 500 None), existingSlugs, rows.
       unfold store_plus. rewrite add_images_rows_nil, add_tiers_rows_nil.
       do 4 (split; [done|]). split; [by right|].
       split; [by left|]. split; [by left|]. split; [done|].
       right. right. split; [done|]. right. split; [done|]. split; [done|].
       destruct Hwhy as [Hwhy|Hwhy]; by eauto 6. }
  set (st3 := add_images_rows i st2).
  destruct (copy_price_tiers_cases cenv ids (productIdMapping products p) st3)
    as (t & Htier & Ht_rows).
  change (product_price_tiers st3) with (product_price_tiers st) in Ht_rows.
  unfold mbind at 1, Handler_bind at 1.
  destruct Htier as [[Htier Htier_ok]|[Htier Hwhy]]; rewrite Htier.
  2: { exists c, p, i, [], (mkCopyResponse 500 None), existingSlugs, rows.
       unfold store_plus. rewrite add_tiers_rows_nil.
       do 4 (split; [done|]). split; [by right|].
       split; [done|]. split; [by left|].
       split; [intros [msg Hmsg]; by specialize (Himg_ok msg)|].
       right. right. split; [done|]. right. split; [done|]. split; [done|].
       destruct Hwhy as [Hwhy|Hwhy]; by eauto 6. }
  exists c, p, i, t. eexists _, existingSlugs, rows.
  split; [reflexivity|].
  do 3 (split; [done|]). split; [by right|]. split; [done|]. split; [done|].
  split; [intros [msg Hmsg]; by specialize (Himg_ok msg)|].
  left. done.
Qed.

Lemma store_plus_nil (st : Store) : store_plus st [] [] [] [] = st.
Proof.
  unfold store_plus.
  by rewrite add_categories_rows_nil, add_products_rows_nil, add_images_rows_nil,
    add_tiers_rows_nil.
Qed.

Lemma productsToInsert_nonempty (products rows : list Row) (set : gset string)
    (tgt : string) (clock : Z) :
  productsToInsert products set tgt clock = Some rows → products ≠ [] → rows ≠ [].
Proof.
  intros Hrows Hne ->.
  destruct (productsToInsert_rows tgt clock products set) as (rows & Hrows' & Hlen & _).
  rewrite Hrows in Hrows'. injection Hrows' as <-. by destruct products.
Qed.

Lemma inserted_rows_nonempty (cenv : CopyEnv) (rows : list Row) :
  rows ≠ [] → inserted_rows cenv rows ≠ [].
Proof. by destruct rows. Qed.

(** X16. The bulk copy always answers, with 200, 400, 404 or 500, and
    whatever it answers it has only appended rows to its four tables: no
    existing row is changed or removed. With 404 it has written nothing;
    with 400 at most categories; images and price tiers are written only
    after products were. *)
Theorem copy_handler_only_appends (trim : string → string) (cenv : CopyEnv)
    (method : Method) (body : option CopyProductsRequest) (st : Store) :
  ∃ resp c p i t,
    copy_handler trim cenv method body st = (Some resp, store_plus st c p i t) ∧
    copy_status resp ∈ [200; 400; 404; 500] ∧
    (copy_status resp = 404 → c = [] ∧ p = [] ∧ i = [] ∧ t = []) ∧
    (copy_status resp = 400 → p = [] ∧ i = [] ∧ t = []) ∧
    (p = [] → i = [] ∧ t = []).
Proof.
  assert (Hearly : ∀ status,
            copy_handler trim cenv method body st
              = (Some (mkCopyResponse status None), st) →
            status ∈ [200; 400; 404; 500] →
            ∃ resp c p i t,
              copy_handler trim cenv method body st = (Some resp, store_plus st c p i t) ∧
              copy_status resp ∈ [200; 400; 404; 500] ∧
              (copy_status resp = 404 → c = [] ∧ p = [] ∧ i = [] ∧ t = []) ∧
              (copy_status resp = 400 → p = [] ∧ i = [] ∧ t = []) ∧
              (p = [] → i = [] ∧ t = [])).
  { intros status Hrun Hin. exists (mkCopyResponse status None), [], [], [], [].
    by rewrite store_plus_nil. }
  destruct (copy_handler_early trim cenv method body st)
    as [[_ Hrun]|[(_ & _ & Hrun)|[(_ & _ & _ & Hrun)|Hlate]]].
  1-3: apply (Hearly _ Hrun); by repeat constructor.
  destruct Hlate as (requestData & ids & Hm & Hc & -> & Hids & Hs & Ht & Hne & Hcases).
  destruct Hcases as [[_ Hrun]|[(_ & _ & Hrun)|(Hfetch & Hp & _)]].
  1-2: apply (Hearly _ Hrun); by repeat constructor.
  destruct (copy_handler_late trim cenv method requestData ids st
              Hm Hc Hids Hs Ht Hne Hfetch Hp)
    as (c & p & i & t & resp & existingSlugs & rows & Hrun & Hrows & _ & _ & Hprod
        & _ & _ & _ & Hresp).
  exists resp, c, p, i, t. split; [done|].
  assert (Hrows_ne : inserted_rows cenv rows ≠ []).
  { by apply inserted_rows_nonempty, (productsToInsert_nonempty _ _ _ _ _ Hrows). }
  split; [|split; [|split]].
  - destruct Hresp as [(-> & _)|[(-> & _)|(-> & _)]]; simpl; by repeat constructor.
  - destruct Hresp as [(-> & _)|[(-> & _)|(-> & _)]]; done.
  - destruct Hresp as [(-> & _)|[(-> & Hnil & _)|(-> & _)]]; [done| |done].
    intros _. destruct Hprod as [?|Hp']; [done|]. by rewrite Hp' in Hnil.
  - intros Hnil. destruct Hprod as [(_ & ? & ?)|Hp']; [done|]. by rewrite Hp' in Hnil.
Qed.

(** X17. When the answer carries statistics it is a 200 and each count is
    the number of rows the invocation has added to the table: the
    products are the requested products of the source account, one copy
    each, at least one. *)
Theorem copy_stats_count_rows (trim : string → string) (cenv : CopyEnv)
    (method : Method) (body : option CopyProductsRequest) (st : Store)
    (resp : CopyResponse) (s : CopyStats) :
  (copy_handler trim cenv method body st).1 = Some resp →
  stats resp = Some s →
  let st' := (copy_handler trim cenv method body st).2 in
  copy_status resp = 200 ∧
  length (store_products st') = length (store_products st) + copiedProducts s ∧
  length (user_product_categories st')
    = length (user_product_categories st) + copiedCategories s ∧
  length (store_product_images st')
    = length (store_product_images st) + copiedImages s ∧
  length (product_price_tiers st')
    = length (product_price_tiers st) + copiedPriceTiers s ∧
  ∃ requestData,
    body = Some requestData ∧
    copiedProducts s = length (products_to_copy requestData st) ∧
    0 < copiedProducts s.
Proof.
  intros Hresp Hstats st'. subst st'.
  destruct (copy_handler_early trim cenv method body st)
    as [[_ Hrun]|[(_ & _ & Hrun)|[(_ & _ & _ & Hrun)|Hlate]]].
  1-3: rewrite Hrun in Hresp; injection Hresp as <-; done.
  destruct Hlate as (requestData & ids & Hm & Hc & -> & Hids & Hs & Ht & Hne & Hcases).
  destruct Hcases as [[_ Hrun]|[(_ & _ & Hrun)|(Hfetch & Hp & _)]].
  1-2: rewrite Hrun in Hresp; injection Hresp as <-; done.
  destruct (copy_handler_late trim cenv method requestData ids st
              Hm Hc Hids Hs Ht Hne Hfetch Hp)
    as (c & p & i & t & resp' & existingSlugs & rows & Hrun & Hrows & _ & _ & _
        & _ & _ & _ & Hcase).
  rewrite Hrun in *. simpl in Hresp. injection Hresp as ->.
  destruct Hcase as [(-> & Hp' & _)|[(-> & _)|(-> & _)]]; [|done..].
  simpl in Hstats. injection Hstats as <-. simpl.
  rewrite !length_app.
  do 5 (split; [done|]). exists requestData. split; [done|].
  destruct (productsToInsert_rows (copy_targetUserId requestData) (copy_clock cenv)
              (products_to_copy requestData st) (existingSlugSet_of existingSlugs))
    as (rows' & Hrows' & Hlen & _).
  rewrite Hrows in Hrows'. injection Hrows' as <-.
  rewrite Hp'. unfold inserted_rows. rewrite length_imap, Hlen.
  split; [done|]. destruct (products_to_copy requestData st); [done|simpl; lia].
Qed.

Lemma copy_stats_count_rows_witness :
  let st' := (copy_handler trim_spaces (copy_env Succeeds Succeeds) POST
                (Some demo_copy_request) demo_store).2 in
  length (store_products st') = length (store_products demo_store) + 2 ∧
  length (store_product_images st') = length (store_product_images demo_store) + 1.
Proof.
  destruct (copy_stats_count_rows trim_spaces (copy_env Succeeds Succeeds) POST
              (Some demo_copy_request) demo_store
              (mkCopyResponse 200 (Some (mkStats 2 1 1 1))) (mkStats 2 1 1 1))
    as (_ & Hp & _ & Hi & _).
  - vm_compute. reflexivity.
  - reflexivity.
  - split; [exact Hp | exact Hi].
Defined.


Lemma inserted_rows_lookup (cenv : CopyEnv) (rows : list Row) (k : nat) :
  inserted_rows cenv rows !! k
  = (λ row : Row, <["id" := VStr (new_product_id cenv k)]> row) <$> rows !! k.
Proof. unfold inserted_rows. by rewrite list_lookup_imap. Qed.

Lemma inserted_rows_slugs (cenv : CopyEnv) (rows : list Row) :
  str_field "slug" <$> inserted_rows cenv rows = str_field "slug" <$> rows.
Proof.
  apply list_eq. intros k. rewrite !list_lookup_fmap, inserted_rows_lookup.
  destruct (rows !! k) as [row|]; [|done]. simpl. f_equal.
  unfold str_field. by rewrite lookup_insert_ne.
Qed.

Lemma inserted_rows_owned (cenv : CopyEnv) (tgt : string) (rows : list Row) :
  Forall (owned_by tgt) rows → Forall (owned_by tgt) (inserted_rows cenv rows).
Proof.
  rewrite !Forall_lookup. intros Hrows k new Hnew.
  rewrite inserted_rows_lookup in Hnew.
  destruct (rows !! k) as [row|] eqn:Hrow; [|done]. injection Hnew as <-.
  unfold owned_by. rewrite lookup_insert_ne by done. by apply (Hrows k).
Qed.

Lemma eq_filter_all (col : string) (v : val) (rows : list Row) :
  Forall (λ row : Row, row !! col = Some v) rows → eq_filter col v rows = rows.
Proof.
  unfold eq_filter. induction 1 as [|row rows Hrow _ IH]; [done|].
  by rewrite filter_cons, decide_True, IH.
Qed.

Lemma productsToInsert_owned (products rows : list Row) (set : gset string)
    (tgt : string) (clock : Z) :
  productsToInsert products set tgt clock = Some rows →
  Forall (owned_by tgt) rows ∧
  NoDup (str_field "slug" <$> rows) ∧
  Forall (λ row : Row, str_field "slug" row ∉ set) rows.
Proof.
  intros Hrows.
  destruct (productsToInsert_rows tgt clock products set)
    as (rows' & Hrows' & _ & Hnd & Hout & Hown & _).
  rewrite Hrows in Hrows'. injection Hrows' as <-.
  split; [|done]. eapply Forall_impl; [exact Hown|]. by intros row [? _].
Qed.

(** X18. When the query of the target account's slugs succeeds, a bulk
    copy keeps the slugs of the target account pairwise distinct, whatever
    else fails and whatever the request is. *)
Theorem copy_keeps_slugs_distinct (trim : string → string) (cenv : CopyEnv)
    (method : Method) (requestData : CopyProductsRequest) (st : Store) :
  on_fetch_slugs cenv = Succeeds →
  NoDup (str_field "slug"
           <$> eq_filter "user_id" (VStr (copy_targetUserId requestData))
                 (store_products st)) →
  NoDup (str_field "slug"
           <$> eq_filter "user_id" (VStr (copy_targetUserId requestData))
                 (store_products
                    (copy_handler trim cenv method (Some requestData) st).2)).
Proof.
  intros Hslugs Hnd.
  destruct (copy_handler_early trim cenv method (Some requestData) st)
    as [[_ Hrun]|[(_ & _ & Hrun)|[(_ & _ & _ & Hrun)|Hlate]]].
  1-3: by rewrite Hrun.
  destruct Hlate as (rd & ids & Hm & Hc & [= <-] & Hids & Hs & Ht & Hne & Hcases).
  destruct Hcases as [[_ Hrun]|[(_ & _ & Hrun)|(Hfetch & Hp & _)]].
  1-2: by rewrite Hrun.
  destruct (copy_handler_late trim cenv method requestData ids st
              Hm Hc Hids Hs Ht Hne Hfetch Hp)
    as (c & p & i & t & resp & existingSlugs & rows & Hrun & Hrows & Hexisting & _
        & Hprod & _).
  rewrite Hrun. simpl. rewrite eq_filter_app, fmap_app.
  destruct Hprod as [(-> & _)| ->]; [by rewrite app_nil_r|].
  rewrite (Hexisting Hslugs) in Hrows.
  destruct (productsToInsert_owned _ _ _ _ _ Hrows) as (Hown & Hnd_rows & Hout).
  rewrite (eq_filter_all _ _ (inserted_rows cenv rows))
    by (by apply inserted_rows_owned).
  rewrite inserted_rows_slugs.
  apply NoDup_app. split; [done|]. split; [|done].
  intros slug Hin Hin'.
  apply list_elem_of_fmap in Hin' as (row & -> & Hrow).
  rewrite Forall_forall in Hout. apply (Hout row Hrow).
  unfold existingSlugSet_of. simpl. by apply elem_of_list_to_set.
Qed.

Lemma copy_keeps_slugs_distinct_witness :
  NoDup (str_field "slug"
           <$> eq_filter "user_id" (VStr "dst")
                 (store_products
                    (copy_handler trim_spaces (copy_env Succeeds Succeeds) POST
                       (Some demo_copy_request) demo_store).2)).
Proof.
  apply (copy_keeps_slugs_distinct trim_spaces (copy_env Succeeds Succeeds) POST
           demo_copy_request demo_store).
  - reflexivity.
  - apply (bool_decide_unpack _). vm_compute. exact I.
Defined.

(** When the query of the target's slugs returns an error, the error is
    not looked at and the copies keep their slugs: the target account ends
    with three products named "chair". *)
Example ignored_slug_error_duplicates_slug :
  let out := copy_handler trim_spaces (copy_env (Fails "timeout") Succeeds) POST
               (Some demo_copy_request) demo_store in
  copy_status <$> out.1 = Some 200 ∧
  str_field "slug" <$> eq_filter "user_id" (VStr "dst") (store_products out.2)
  = ["chair"; "chair"; "chair-1"].
Proof. vm_compute. split; reflexivity. Qed.

(** ** Images and price tiers of the copies *)







Lemma reaches_copy_late (trim : string → string) (cenv : CopyEnv) (method : Method)
    (requestData : CopyProductsRequest) (st : Store) :
  reaches_copy cenv method requestData st →
  ∃ ids, productIds requestData = Some ids ∧
  ∃ c p i t resp existingSlugs rows,
    copy_handler trim cenv method (Some requestData) st
      = (Some resp, store_plus st c p i t) ∧
    productsToInsert (products_to_copy requestData st) (existingSlugSet_of existingSlugs)
      (copy_targetUserId requestData) (copy_clock cenv) = Some rows ∧
    ((∃ msg, on_fetch_images cenv = Rejects msg) → i = [] ∧ t = []) ∧
    ((resp = mkCopyResponse 200
               (Some {| copiedProducts := length p; copiedImages := length i;
                        copiedPriceTiers := length t; copiedCategories := length c |})
      ∧ p = inserted_rows cenv rows
      ∧ on_insert_products cenv = RowsInserted
      ∧ (∀ msg, on_fetch_slugs cenv ≠ Rejects msg)
      ∧ (∀ msg, on_fetch_images cenv ≠ Rejects msg)
      ∧ (∀ msg, on_fetch_tiers cenv ≠ Rejects msg))
     ∨ (resp = mkCopyResponse 400 None ∧ p = []
        ∧ on_insert_products cenv = NothingInserted)
     ∨ (resp = mkCopyResponse 500 None ∧
        ((p = [] ∧
          ((∃ msg, on_fetch_categories cenv = Rejects msg)
           ∨ (∃ msg, on_insert_categories cenv = Rejects msg)
           ∨ (∃ msg, on_fetch_slugs cenv = Rejects msg)
           ∨ (∃ msg, on_insert_products cenv = BulkFails msg)
           ∨ (∃ msg, on_insert_products cenv = BulkRejects msg)))
         ∨ (p = inserted_rows cenv rows ∧ on_insert_products cenv = RowsInserted ∧
            ((∃ msg, on_fetch_images cenv = Rejects msg)
             ∨ (∃ msg, on_insert_images cenv = Rejects msg)
             ∨ (∃ msg, on_fetch_tiers cenv = Rejects msg)
             ∨ (∃ msg, on_insert_tiers cenv = Rejects msg)))))).
Proof.
  intros (Hm & Hc & [ids Hids] & Hne & Hs & Ht & Hfetch & Hp).
  exists ids. split; [done|].
  assert (ids ≠ []) by (intros ->; done).
  destruct (copy_handler_late trim cenv method requestData ids st)
    as (c & p & i & t & resp & existingSlugs & rows & Hrun & Hrows & _ & _ & _ & _ & _
        & Hrej & Hcases); try done.
  by exists c, p, i, t, resp, existingSlugs, rows.
Qed.

Lemma copied_length (cenv : CopyEnv) (products rows : list Row) (set : gset string)
    (tgt : string) (clock : Z) :
  productsToInsert products set tgt clock = Some rows →
  length (inserted_rows cenv rows) = length products.
Proof.
  intros Hrows.
  destruct (productsToInsert_rows tgt clock products set) as (rows' & Hrows' & Hlen & _).
  rewrite Hrows in Hrows'. injection Hrows' as <-.
  unfold inserted_rows. by rewrite length_imap.
Qed.

Lemma demo_reaches_copy (slugs images : Outcome) :
  reaches_copy (copy_env slugs images) POST demo_copy_request demo_store.
Proof.
  unfold reaches_copy.
  split; [done|]. split; [done|]. split; [by eexists|]. split; [done|].
  split; [done|]. split; [done|]. split; [done|].
  intros Hnil. apply (f_equal length) in Hnil. vm_compute in Hnil. discriminate.
Qed.

(** X20. The copy is not undone when a later call is rejected: if the
    products were inserted and the query of the images is then rejected,
    the invocation answers 500 although every requested product of the
    source account has been copied; no image and no price tier has. *)
Theorem rejected_image_query_leaves_copies (trim : string → string) (cenv : CopyEnv)
    (method : Method) (requestData : CopyProductsRequest) (st : Store) (msg : string) :
  reaches_copy cenv method requestData st →
  (∀ m, on_fetch_categories cenv ≠ Rejects m) →
  (∀ m, on_insert_categories cenv ≠ Rejects m) →
  (∀ m, on_fetch_slugs cenv ≠ Rejects m) →
  on_insert_products cenv = RowsInserted →
  on_fetch_images cenv = Rejects msg →
  ∃ st' copies,
    copy_handler trim cenv method (Some requestData) st
      = (Some (mkCopyResponse 500 None), st') ∧
    store_products st' = store_products st ++ copies ∧
    length copies = length (products_to_copy requestData st) ∧
    Forall (owned_by (copy_targetUserId requestData)) copies ∧
    store_product_images st' = store_product_images st ∧
    product_price_tiers st' = product_price_tiers st.
Proof.
  intros Hreach Hfc Hic Hfs Hins Hfi.
  destruct (reaches_copy_late trim cenv method requestData st Hreach)
    as (ids & Hids & c & p & i & t & resp & existingSlugs & rows & Hrun & Hrows
        & Hrej & Hcases).
  destruct (Hrej (ex_intro _ msg Hfi)) as [-> ->].
  assert (Hcopies : p = inserted_rows cenv rows → ∃ st' copies,
    (Some (mkCopyResponse 500 None), store_plus st c p [] [])
      = (Some (mkCopyResponse 500 None), st') ∧
    store_products st' = store_products st ++ copies ∧
    length copies = length (products_to_copy requestData st) ∧
    Forall (owned_by (copy_targetUserId requestData)) copies ∧
    store_product_images st' = store_product_images st ∧
    product_price_tiers st' = product_price_tiers st).
  { intros ->. eexists _, _. split; [reflexivity|]. split; [reflexivity|].
    split; [by eapply copied_length|]. split.
    - apply inserted_rows_owned. by destruct (productsToInsert_owned _ _ _ _ _ Hrows).
    - simpl. by rewrite !app_nil_r. }
  rewrite Hrun.
  destruct Hcases as [(_ & _ & _ & _ & Hok & _)|[(_ & _ & Hwhy)|(-> & Hwhy)]].
  - by specialize (Hok msg).
  - congruence.
  - destruct Hwhy as [(_ & Hwhy)|(Hp & _)]; [|by apply Hcopies].
    exfalso. destruct Hwhy as [[m Hwhy]|[[m Hwhy]|[[m Hwhy]|[[m Hwhy]|[m Hwhy]]]]].
    + by apply (Hfc m).
    + by apply (Hic m).
    + by apply (Hfs m).
    + congruence.
    + congruence.
Qed.

Lemma rejected_image_query_leaves_copies_witness :
  ∃ st' copies,
    copy_handler trim_spaces (copy_env Succeeds (Rejects "reset")) POST
      (Some demo_copy_request) demo_store
      = (Some (mkCopyResponse 500 None), st') ∧
    store_products st' = store_products demo_store ++ copies ∧
    length copies = 2.
Proof.
  destruct (rejected_image_query_leaves_copies trim_spaces
              (copy_env Succeeds (Rejects "reset")) POST demo_copy_request demo_store
              "reset")
    as (st' & copies & Hrun & Hp & Hlen & _).
  - apply demo_reaches_copy.
  - done.
  - done.
  - done.
  - reflexivity.
  - reflexivity.
  - exists st', copies. split; [exact Hrun|]. split; [exact Hp|].
    rewrite Hlen. vm_compute. reflexivity.
Defined.



(** ** Categories of a bulk copy *)

Lemma set_add_elem (x y : string) (set : list string) :
  x ∈ set_add y set ↔ x ∈ set ∨ x = y.
Proof.
  unfold set_add. case_decide as Hy.
  - split; [by left|]. by intros [?| ->].
  - by rewrite elem_of_app, list_elem_of_singleton.
Qed.

Lemma set_add_NoDup (y : string) (set : list string) :
  NoDup set → NoDup (set_add y set).
Proof.
  intros Hnd. unfold set_add. case_decide as Hy; [done|].
  apply NoDup_app. split; [done|]. split; [|apply NoDup_singleton].
  intros x Hx Hxy. apply list_elem_of_singleton in Hxy. by subst.
Qed.

Lemma add_array_categories (trim : string → string) (cats : list string) :
  ∀ set : list string,
    let set' := foldl (λ set cat, if String.eqb cat "" then set
                                  else set_add (trim cat) set) set cats in
    (NoDup set → NoDup set') ∧
    (∀ name, name ∈ set'
             ↔ name ∈ set ∨ ∃ cat, cat ∈ cats ∧ cat ≠ "" ∧ name = trim cat).
Proof.
  induction cats as [|cat cats IH]; intros set; simpl.
  - split; [done|]. intros name. split; [by left|].
    intros [?|(cat & Hin & _)]; [done|]. by apply elem_of_nil in Hin.
  - destruct (IH (if String.eqb cat "" then set else set_add (trim cat) set))
      as [Hnd Hin].
    split.
    + intros Hset. apply Hnd. destruct (String.eqb cat ""); [done|].
      by apply set_add_NoDup.
    + intros name. rewrite Hin. destruct (String.eqb cat "") eqn:Hcat.
      * apply String.eqb_eq in Hcat. subst cat. split.
        -- intros [?|(cat & Hc & Hne & ->)]; [by left|].
           right. exists cat. split; [by apply elem_of_cons; right|done].
        -- intros [?|(cat & Hc & Hne & ->)]; [by left|].
           apply elem_of_cons in Hc as [->|Hc]; [done|]. right. by exists cat.
      * apply String.eqb_neq in Hcat. rewrite set_add_elem. split.
        -- intros [[?| ->]|(cat' & Hc & Hne & ->)]; [by left| |].
           ++ right. exists cat. split; [by apply elem_of_cons; left|done].
           ++ right. exists cat'. split; [by apply elem_of_cons; right|done].
        -- intros [?|(cat' & Hc & Hne & ->)]; [by left; left|].
           apply elem_of_cons in Hc as [->|Hc]; [left; by right|].
           right. by exists cat'.
Qed.

Lemma add_categories_spec (trim : string → string) (set : list string) (product : Row) :
  (NoDup set → NoDup (add_categories trim set product)) ∧
  (∀ name, name ∈ add_categories trim set product
           ↔ name ∈ set ∨ names_of trim product name).
Proof.
  unfold add_categories, names_of.
  destruct (product !! "category") as [[category|n|b|cats|]|].
  2-3, 5-6: split; [done|]; intros name; split; [by left | by intros [?|[]]].
  - destruct (String.eqb category "") eqn:Hcat.
    { apply String.eqb_eq in Hcat. split; [done|]. intros name.
      split; [by left|]. by intros [?|[? _]]. }
    apply String.eqb_neq in Hcat.
    destruct (String.eqb (trim category) "") eqn:Htrim.
    { apply String.eqb_eq in Htrim. split; [done|]. intros name.
      split; [by left|]. intros [?|(_ & -> & Hne)]; done. }
    apply String.eqb_neq in Htrim. split; [by apply set_add_NoDup|].
    intros name. rewrite set_add_elem. split.
    + intros [?| ->]; [by left|by right].
    + intros [?|(_ & -> & _)]; [by left|by right].
  - apply add_array_categories.
Qed.

Lemma uniqueCategories_spec (trim : string → string) (products : list Row) :
  ∀ set : list string,
    (NoDup set → NoDup (foldl (add_categories trim) set products)) ∧
    (∀ name, name ∈ foldl (add_categories trim) set products
             ↔ name ∈ set ∨ ∃ product, product ∈ products ∧ names_of trim product name).
Proof.
  induction products as [|product products IH]; intros set; simpl.
  - split; [done|]. intros name. split; [by left|].
    intros [?|(product & Hin & _)]; [done|]. by apply elem_of_nil in Hin.
  - destruct (IH (add_categories trim set product)) as [Hnd Hin].
    destruct (add_categories_spec trim set product) as [Hnd1 Hin1].
    split; [intros Hset; by apply Hnd, Hnd1|].
    intros name. rewrite Hin, Hin1. split.
    + intros [[?|Hname]|(product' & Hp & Hname)]; [by left| |].
      * right. exists product. split; [by apply elem_of_cons; left|done].
      * right. exists product'. split; [by apply elem_of_cons; right|done].
    + intros [?|(product' & Hp & Hname)]; [by left; left|].
      apply elem_of_cons in Hp as [->|Hp]; [left; by right|].
      right. by exists product'.
Qed.

Lemma category_row_name (cenv : CopyEnv) (tgt name : string) :
  category_row cenv tgt name !! "name" = Some (VStr name).
Proof. unfold category_row. by rewrite lookup_insert_ne, lookup_insert_eq. Qed.

Lemma category_row_owned (cenv : CopyEnv) (tgt name : string) :
  owned_by tgt (category_row cenv tgt name).
Proof. unfold owned_by, category_row. by rewrite lookup_insert_eq. Qed.

(** X22. The categories a bulk copy creates: the names collected from the
    products are pairwise distinct and are exactly the trimmed category
    names of the products (of a string category unless it trims to the
    empty name; of every non-empty element of an array category, even
    when it trims to the empty name). One row is prepared for each
    collected name that is not among the names fetched for the target
    account, each owned by the target account, no name twice. *)
Theorem categories_created_once (trim : string → string) (cenv : CopyEnv)
    (tgt : string) (products : list Row) (existingCategories : option (list Row)) :
  let names := uniqueCategories trim products in
  let rows := categoriesToCreate cenv tgt names existingCategories in
  NoDup names ∧
  (∀ name, name ∈ names
           ↔ ∃ product, product ∈ products ∧ names_of trim product name) ∧
  ("" ∈ names
   ↔ ∃ (product : Row) cats cat,
       product ∈ products ∧ product !! "category" = Some (VArr cats) ∧
       cat ∈ cats ∧ cat ≠ "" ∧ trim cat = "") ∧
  NoDup ((λ row : Row, row !! "name") <$> rows) ∧
  (∀ row, row ∈ rows
          ↔ ∃ name, name ∈ names ∧ row = category_row cenv tgt name ∧
              Some (VStr name)
              ∉ (λ cat : Row, cat !! "name") <$> default [] existingCategories) ∧
  Forall (owned_by tgt) rows.
Proof.
  intros names rows.
  destruct (uniqueCategories_spec trim products []) as [Hnd Hin].
  assert (Hnames : ∀ name, name ∈ names
            ↔ ∃ product, product ∈ products ∧ names_of trim product name).
  { intros name. unfold names, uniqueCategories. rewrite Hin. split.
    - intros [Hnil|?]; [by apply elem_of_nil in Hnil|done].
    - by right. }
  assert (Hrows : ∀ row, row ∈ rows
            ↔ ∃ name, name ∈ names ∧ row = category_row cenv tgt name ∧
                Some (VStr name)
                ∉ (λ cat : Row, cat !! "name") <$> default [] existingCategories).
  { intros row. unfold rows, categoriesToCreate. rewrite list_elem_of_fmap. split.
    - intros (name & -> & Hname). apply list_elem_of_filter in Hname as [Hnew Hname].
      by exists name.
    - intros (name & Hname & -> & Hnew). exists name. split; [done|].
      by apply list_elem_of_filter. }
  split; [apply Hnd; constructor|]. split; [done|]. split; [|split; [|split; [done|]]].
  - rewrite Hnames. unfold names_of. split.
    + intros (product & Hp & Hname).
      destruct (product !! "category") as [[category|n|b|cats|]|] eqn:Hcat; try done.
      * by destruct Hname as (_ & _ & ?).
      * destruct Hname as (cat & Hc & Hne & Htrim). by exists product, cats, cat.
    + intros (product & cats & cat & Hp & Hcat & Hc & Hne & Htrim).
      exists product. split; [done|]. rewrite Hcat. by exists cat.
  - unfold rows, categoriesToCreate. rewrite <- list_fmap_compose.
    apply NoDup_fmap_2.
    + intros name1 name2 Heq. simpl in Heq.
      rewrite !category_row_name in Heq. congruence.
    + apply NoDup_filter, Hnd. constructor.
  - apply Forall_forall. intros row Hrow. apply Hrows in Hrow as (name & _ & -> & _).
    apply category_row_owned.
Qed.

(** A blank element of an array category yields a category with the empty
    name; a blank string category yields none. *)
Example blank_array_category_is_created :
  uniqueCategories trim_spaces
    [ {[ "category" := VArr ["  "; "tools "] ]}; {[ "category" := VStr "  " ]};
      {[ "category" := VStr " tools" ]} ]
  = [""; "tools"].
Proof. vm_compute. reflexivity. Qed.

